(** * vizcar: ESP32 camera robot car, [app_httpd.cpp]

    A shallow embedding of the motor driver, the MJPEG streaming handler and
    the single-capture handler, with the properties of their behaviour.

    The firmware only talks to vendor APIs (LEDC PWM, camera driver, JPEG
    converter, HTTP server).  A run of a function is therefore modelled by
    the list of API calls it performs, each recorded with the arguments it
    was given and, where the code reads it, the value the API returned.
    What the APIs return is chosen by an environment. *)

From Stdlib Require Import ZArith NArith Lia.
From Stdlib.Strings Require Import Ascii String Byte.
From stdpp Require Import base decidable list gmap.

Local Open Scope Z_scope.

(** ** External types *)

Inductive pin_mode_t := INPUT | OUTPUT.
Inductive level_t := LOW | HIGH.

(** [pixformat_t] of the camera driver; the handlers only test for
    [PIXFORMAT_JPEG]. *)
Inductive pixformat_t :=
| PIXFORMAT_RGB565 | PIXFORMAT_YUV422 | PIXFORMAT_YUV420 | PIXFORMAT_GRAYSCALE
| PIXFORMAT_JPEG | PIXFORMAT_RGB888 | PIXFORMAT_RAW | PIXFORMAT_RGB444
| PIXFORMAT_RGB555.

Definition is_jpeg (f : pixformat_t) : bool :=
  match f with PIXFORMAT_JPEG => true | _ => false end.

(** [camera_fb_t]: the address identifies the driver's buffer, [buf] is the
    memory [fb->buf] points to, and [fb->len] is its length. *)
Record camera_fb_t := mk_fb {
  fb_addr : N;
  buf : list byte;
  format : pixformat_t
}.

Definition len (fb : camera_fb_t) : N := N.of_nat (length (buf fb)).

(** What [_jpg_buf] can point to: the frame's own bytes, or a block that
    [frame2jpg] allocated.  [None] is the null pointer. *)
Inductive jpg_ptr :=
| FbBuf (fb : camera_fb_t)
| Heap (addr : N) (data : list byte).

Definition ptr_bytes (p : option jpg_ptr) : list byte :=
  match p with
  | Some (FbBuf fb) => buf fb
  | Some (Heap _ data) => data
  | None => []
  end.

(** The [n] bytes at a pointer, as a write of [(p, n)] sends them. *)
Definition bytes_at (p : option jpg_ptr) (n : N) : list byte :=
  take (N.to_nat n) (ptr_bytes p).

(** [esp_err_t] is an [int]. *)
Definition esp_err_t := Z.
Definition ESP_OK : esp_err_t := 0.
Definition ESP_FAIL : esp_err_t := -1.

(** ** Calls to the vendor APIs *)

Inductive call :=
| pinMode (pin : Z) (m : pin_mode_t)
| ledcAttach (pin freq resolution : Z)
| ledcWrite (pin : Z) (duty : Z)
| digitalWrite (pin : Z) (v : level_t)
| Serial_println (s : string)
| esp_camera_fb_get (r : option camera_fb_t)
| esp_camera_fb_return (fb : camera_fb_t)
| frame2jpg (fb : camera_fb_t) (quality : Z) (r : option (N * list byte))
| free (p : jpg_ptr)
| httpd_resp_set_type (t : string)
| httpd_resp_set_hdr (field value : string)
| httpd_resp_send (data : list byte) (r : esp_err_t)
| httpd_resp_send_chunk (data : list byte) (r : esp_err_t)
| httpd_resp_send_500.

Abbreviation trace := (list call).

(** ** Motor driver *)

Module Motor.

Definition LEFT_M0 : Z := 13.   (* Left motor backward *)
Definition LEFT_M1 : Z := 12.   (* Left motor forward *)
Definition RIGHT_M0 : Z := 14.  (* Right motor backward *)
Definition RIGHT_M1 : Z := 15.  (* Right motor forward *)

Definition channels : list Z := [LEFT_M0; LEFT_M1; RIGHT_M0; RIGHT_M1].

(** [ledcWrite(uint8_t pin, uint32_t duty)] receives the [int] global
    [speed] converted to [uint32_t]. *)
Definition to_uint32 (z : Z) : Z := z mod 2 ^ 32.

Definition robot_stop : trace :=
  [ ledcWrite LEFT_M0 0;
    ledcWrite LEFT_M1 0;
    ledcWrite RIGHT_M0 0;
    ledcWrite RIGHT_M1 0;
    Serial_println "Motors: STOP" ].

Definition robot_left (speed : Z) : trace :=
  [ ledcWrite LEFT_M0 0;
    ledcWrite LEFT_M1 (to_uint32 speed);
    ledcWrite RIGHT_M0 0;
    ledcWrite RIGHT_M1 (to_uint32 speed);
    Serial_println "Motors: FORWARD" ].

Definition robot_right (speed : Z) : trace :=
  [ ledcWrite LEFT_M0 (to_uint32 speed);
    ledcWrite LEFT_M1 0;
    ledcWrite RIGHT_M0 (to_uint32 speed);
    ledcWrite RIGHT_M1 0;
    Serial_println "Motors: BACKWARD" ].

Definition robot_fwd (speed : Z) : trace :=
  [ ledcWrite LEFT_M0 (to_uint32 speed);
    ledcWrite LEFT_M1 0;
    ledcWrite RIGHT_M0 0;
    ledcWrite RIGHT_M1 (to_uint32 speed);
    Serial_println "Motors: LEFT" ].

Definition robot_back (speed : Z) : trace :=
  [ ledcWrite LEFT_M0 0;
    ledcWrite LEFT_M1 (to_uint32 speed);
    ledcWrite RIGHT_M0 (to_uint32 speed);
    ledcWrite RIGHT_M1 0;
    Serial_println "Motors: RIGHT" ].

Definition robot_setup : trace :=
  [ Serial_println "Initializing motors...";
    pinMode LEFT_M0 OUTPUT;
    pinMode LEFT_M1 OUTPUT;
    pinMode RIGHT_M0 OUTPUT;
    pinMode RIGHT_M1 OUTPUT;
    ledcAttach LEFT_M0 2000 8;
    ledcAttach LEFT_M1 2000 8;
    ledcAttach RIGHT_M0 2000 8;
    ledcAttach RIGHT_M1 2000 8 ]
  ++ robot_stop
  ++ [ Serial_println "Motors initialized" ].

(** The four moving directions, by the function that implements each. *)
Inductive direction := Fwd | Back | Left | Right.

Definition robot (d : direction) (speed : Z) : trace :=
  match d with
  | Fwd => robot_fwd speed
  | Back => robot_back speed
  | Left => robot_left speed
  | Right => robot_right speed
  end.

(** *** The PWM registers

    The duty cycle held by each pin.  [ledcWrite pin duty] stores [duty]
    for [pin]; the writes to initialised channels have no failure mode.
    Whatever [ledcAttach] leaves in a channel is overwritten by the
    [ledcWrite] calls that follow it in [robot_setup]. *)

Definition pwm_step (m : gmap Z Z) (c : call) : gmap Z Z :=
  match c with
  | ledcWrite pin duty => <[pin := duty]> m
  | _ => m
  end.

Definition pwm_run (t : trace) (m : gmap Z Z) : gmap Z Z :=
  foldl pwm_step m t.

(** The duty-cycle writes of a run, in the order they are issued. *)
Fixpoint ledc_writes (t : trace) : list (Z * Z) :=
  match t with
  | [] => []
  | ledcWrite pin duty :: t' => (pin, duty) :: ledc_writes t'
  | _ :: t' => ledc_writes t'
  end.

Definition pins_written_with (duty : Z) (t : trace) : list Z :=
  (filter (λ w, w.2 = duty) (ledc_writes t)).*1.

(** The channels that a run writes with a nonzero duty cycle. *)
Definition nonzero_channels (t : trace) : gset Z :=
  list_to_set (filter (λ w, w.2 ≠ 0) (ledc_writes t)).*1.

(** *** Control handlers: the motor action, then the reply ["OK"]. *)

Definition OK_body : list byte := [x4f; x4b]%byte.

Definition reply_OK (r : esp_err_t) : trace :=
  [ httpd_resp_set_type "text/html"; httpd_resp_send OK_body r ].

Definition go_handler (speed : Z) (r : esp_err_t) : esp_err_t * trace :=
  (r, robot_fwd speed ++ reply_OK r).

Definition back_handler (speed : Z) (r : esp_err_t) : esp_err_t * trace :=
  (r, robot_back speed ++ reply_OK r).

Definition left_handler (speed : Z) (r : esp_err_t) : esp_err_t * trace :=
  (r, robot_left speed ++ reply_OK r).

Definition right_handler (speed : Z) (r : esp_err_t) : esp_err_t * trace :=
  (r, robot_right speed ++ reply_OK r).

Definition stop_handler (r : esp_err_t) : esp_err_t * trace :=
  (r, robot_stop ++ reply_OK r).

End Motor.

(** ** Formatting of the per-part header *)

Module Fmt.

Local Open Scope N_scope.

Definition CRLF : string := String "013" (String "010" EmptyString).

Definition PART_BOUNDARY : string := "123456789000000000000987654321".

Definition _STREAM_CONTENT_TYPE : string :=
  String.append "multipart/x-mixed-replace;boundary=" PART_BOUNDARY.

Definition _STREAM_BOUNDARY : string :=
  String.append CRLF (String.append "--" (String.append PART_BOUNDARY CRLF)).

Definition _STREAM_PART : string :=
  String.append "Content-Type: image/jpeg"
    (String.append CRLF
       (String.append "Content-Length: %u" (String.append CRLF CRLF))).

(** *** The [%u] conversion

    The decimal digits of [n], least significant first.  A number below
    [2 ^ fuel] has at most [fuel] digits, so [utoa] never runs out. *)

Fixpoint digits_lsb (fuel : nat) (n : N) : list N :=
  match fuel with
  | O => []
  | S fuel' =>
      n mod 10 :: (if n / 10 =? 0 then [] else digits_lsb fuel' (n / 10))
  end.

Definition digit_char (d : N) : ascii := ascii_of_N (48 + d).

Definition utoa (n : N) : string :=
  string_of_list_ascii
    (map digit_char (rev (digits_lsb (S (N.to_nat (N.size n))) n))).

(** The number that a list of digits, least significant first, denotes. *)
Fixpoint value_lsb (ds : list N) : N :=
  match ds with
  | [] => 0
  | d :: ds' => d + 10 * value_lsb ds'
  end.

(** [unsigned int] and [size_t] are 32 bits wide on the ESP32. *)
Definition to_uint32 (n : N) : N := n mod 2 ^ 32.

(** [format_u fmt arg]: the text [printf] produces for a format with one
    [%u] conversion; every other character is copied. *)
Fixpoint format_u (fmt : string) (arg : N) : string :=
  match fmt with
  | EmptyString => EmptyString
  | String c rest =>
      if Ascii.eqb c "%" then
        match rest with
        | String c' rest' =>
            if Ascii.eqb c' "u"
            then String.append (utoa (to_uint32 arg)) rest'
            else String c (format_u rest arg)
        | EmptyString => String c EmptyString
        end
      else String c (format_u rest arg)
  end.

(** [snprintf(buf, size, fmt, arg)]: at most [size - 1] characters and a
    terminating NUL are stored; the value returned is the length of the
    whole text, stored or not. *)
Definition snprintf (size : nat) (fmt : string) (arg : N) : list byte * N :=
  let text := list_byte_of_string (format_u fmt arg) in
  (take (size - 1) text ++ [x00%byte], N.of_nat (length text)).

End Fmt.

(** ** Streaming handler *)

Module Stream.

Import Fmt.

(** What the APIs answer during one pass through the loop body: the frame
    [esp_camera_fb_get] returns (or none), the block [frame2jpg] allocates
    (or failure; it is consulted only for a frame that is not JPEG), and the
    results of the three chunked writes (each consulted only when it is
    reached). *)
Record frame_env := mk_env {
  cam : option camera_fb_t;
  conv : option (N * list byte);
  wr_header : esp_err_t;
  wr_body : esp_err_t;
  wr_boundary : esp_err_t
}.

(** The local variables of [stream_handler] that live across the loop. *)
Record locals := mk_locals {
  fb : option camera_fb_t;
  res : esp_err_t;
  _jpg_buf_len : N;
  _jpg_buf : option jpg_ptr
}.

Definition init_locals : locals :=
  {| fb := None; res := ESP_OK; _jpg_buf_len := 0; _jpg_buf := None |}.

(** Lines 143-160: acquire, and convert a frame that is not JPEG.
    [frame2jpg] stores through its out-pointers only when it succeeds. *)
Definition acquire (e : frame_env) (s : locals) : locals * trace :=
  match cam e with
  | None =>
      ({| fb := None; res := ESP_FAIL;
          _jpg_buf_len := _jpg_buf_len s; _jpg_buf := _jpg_buf s |},
       [ esp_camera_fb_get None; Serial_println "Camera capture failed" ])
  | Some f =>
      if negb (is_jpeg (format f)) then
        match conv e with
        | Some (a, d) =>
            ({| fb := None; res := res s;
                _jpg_buf_len := N.of_nat (length d);
                _jpg_buf := Some (Heap a d) |},
             [ esp_camera_fb_get (Some f);
               frame2jpg f 80 (Some (a, d));
               esp_camera_fb_return f ])
        | None =>
            ({| fb := None; res := ESP_FAIL;
                _jpg_buf_len := _jpg_buf_len s; _jpg_buf := _jpg_buf s |},
             [ esp_camera_fb_get (Some f);
               frame2jpg f 80 None;
               esp_camera_fb_return f;
               Serial_println "JPEG compression failed" ])
        end
      else
        ({| fb := Some f; res := res s;
            _jpg_buf_len := len f; _jpg_buf := Some (FbBuf f) |},
         [ esp_camera_fb_get (Some f) ])
  end.

(** Lines 162-171: the three chunked writes, each guarded by [res == ESP_OK]. *)
Definition send (e : frame_env) (s : locals) : locals * trace :=
  let '(r1, t1) :=
    if (res s =? ESP_OK)%Z then
      let '(part_buf, hlen) := snprintf 64 _STREAM_PART (_jpg_buf_len s) in
      (wr_header e,
       [ httpd_resp_send_chunk (take (N.to_nat hlen) part_buf) (wr_header e) ])
    else (res s, []) in
  let '(r2, t2) :=
    if (r1 =? ESP_OK)%Z then
      (wr_body e,
       [ httpd_resp_send_chunk (bytes_at (_jpg_buf s) (_jpg_buf_len s))
           (wr_body e) ])
    else (r1, []) in
  let '(r3, t3) :=
    if (r2 =? ESP_OK)%Z then
      (wr_boundary e,
       [ httpd_resp_send_chunk (list_byte_of_string _STREAM_BOUNDARY)
           (wr_boundary e) ])
    else (r2, []) in
  ({| fb := fb s; res := r3;
      _jpg_buf_len := _jpg_buf_len s; _jpg_buf := _jpg_buf s |},
   t1 ++ t2 ++ t3).

(** Lines 173-180: give the frame back, or free the converted block. *)
Definition release (s : locals) : locals * trace :=
  match fb s with
  | Some f =>
      ({| fb := None; res := res s;
          _jpg_buf_len := _jpg_buf_len s; _jpg_buf := None |},
       [ esp_camera_fb_return f ])
  | None =>
      match _jpg_buf s with
      | Some p =>
          ({| fb := None; res := res s;
              _jpg_buf_len := _jpg_buf_len s; _jpg_buf := None |},
           [ free p ])
      | None => (s, [])
      end
  end.

(** One pass through the body of [while(true)], up to the [break] test. *)
Definition iteration (e : frame_env) (s : locals) : locals * trace :=
  let '(s1, t1) := acquire e s in
  let '(s2, t2) := send e s1 in
  let '(s3, t3) := release s2 in
  (s3, t1 ++ t2 ++ t3).

(** The loop, from pass number [i].  [Some r] is the value of [res] at the
    [break]; [None] means the loop is still running after [fuel] passes.
    In both cases the calls made so far are returned. *)
Fixpoint loop (fuel : nat) (env : nat -> frame_env) (i : nat) (s : locals)
  : option esp_err_t * trace :=
  match fuel with
  | O => (None, [])
  | S fuel' =>
      let '(s', t) := iteration (env i) s in
      if negb (res s' =? ESP_OK)%Z then (Some (res s'), t)
      else
        let '(r, t') := loop fuel' env (S i) s' in
        (r, t ++ t')
  end.

(** [stream_handler]: [set_type] is the result of the call that sets the
    content type of the response. *)
Definition stream_handler (fuel : nat) (set_type : esp_err_t)
    (env : nat -> frame_env) : option esp_err_t * trace :=
  if negb (set_type =? ESP_OK)%Z then
    (Some set_type, [ httpd_resp_set_type _STREAM_CONTENT_TYPE ])
  else
    let '(r, t) := loop fuel env 0 init_locals in
    (r, httpd_resp_set_type _STREAM_CONTENT_TYPE :: t).

(** *** Kinds of passes

    A pass delivers a JPEG body when a frame is acquired and is JPEG or is
    converted; it is a successful acquire-and-send cycle when moreover the
    three chunked writes succeed, and a pass with a failing write when one
    of them does not. *)

Definition delivers (e : frame_env) : bool :=
  match cam e with
  | Some f => is_jpeg (format f) || (if conv e is Some _ then true else false)
  | None => false
  end.

Definition writes_ok (e : frame_env) : bool :=
  (wr_header e =? ESP_OK)%Z && (wr_body e =? ESP_OK)%Z
  && (wr_boundary e =? ESP_OK)%Z.

Definition cycle_ok (e : frame_env) : bool := delivers e && writes_ok e.

Definition write_fails (e : frame_env) : bool := delivers e && negb (writes_ok e).

(** The JPEG body of a pass that delivers one. *)
Definition jpeg_body (e : frame_env) : list byte :=
  match cam e with
  | Some f =>
      if is_jpeg (format f) then buf f
      else match conv e with Some (_, d) => d | None => [] end
  | None => []
  end.

(** The header of a part whose body has [n] bytes, and the boundary line. *)
Definition part_header (n : N) : list byte :=
  list_byte_of_string
    (String.append "Content-Type: image/jpeg"
       (String.append CRLF
          (String.append "Content-Length: "
             (String.append (utoa n) (String.append CRLF CRLF))))).

(** The state at the head of the loop. *)
Definition at_loop_head (s : locals) : Prop :=
  fb s = None ∧ _jpg_buf s = None ∧ res s = ESP_OK.

(** The calls of a pass that starts at the head of the loop, and the value
    of [res] at its [break] test. *)
Definition pass_trace (e : frame_env) : trace := (iteration e init_locals).2.

Definition pass_res (e : frame_env) : esp_err_t := res (iteration e init_locals).1.

Definition boundary_line : list byte :=
  list_byte_of_string
    (String.append CRLF (String.append "--" (String.append PART_BOUNDARY CRLF))).

End Stream.

(** ** Single-capture handler *)

Module Capture.

Record capture_env := mk_env {
  cam : option camera_fb_t;
  conv : option (N * list byte);
  wr : esp_err_t
}.

Definition capture_handler (e : capture_env) : esp_err_t * trace :=
  match cam e with
  | None =>
      (ESP_FAIL,
       [ esp_camera_fb_get None;
         Serial_println "Camera capture failed";
         httpd_resp_send_500 ])
  | Some fb =>
      let t0 :=
        [ esp_camera_fb_get (Some fb);
          httpd_resp_set_type "image/jpeg";
          httpd_resp_set_hdr "Content-Disposition"
            "inline; filename=capture.jpg" ] in
      let '(res, t1) :=
        if is_jpeg (format fb) then
          (wr e,
           [ httpd_resp_send (bytes_at (Some (FbBuf fb)) (len fb)) (wr e) ])
        else
          match conv e with
          | Some (a, d) =>
              let _jpg_buf := Heap a d in
              let _jpg_buf_len := N.of_nat (length d) in
              (wr e,
               [ frame2jpg fb 80 (Some (a, d));
                 httpd_resp_send (bytes_at (Some _jpg_buf) _jpg_buf_len) (wr e);
                 free _jpg_buf ])
          | None => (ESP_FAIL, [ frame2jpg fb 80 None ])
          end in
      (res, t0 ++ t1 ++ [ esp_camera_fb_return fb ])
  end.

End Capture.

(** ** Ownership of buffers along a run *)

(** Take one occurrence of [a] out of [l]; [None] when there is none. *)
Fixpoint remove_one (a : N) (l : list N) : option (list N) :=
  match l with
  | [] => None
  | x :: l' =>
      if (a =? x)%N then Some l'
      else match remove_one a l' with
           | Some r => Some (x :: r)
           | None => None
           end
  end.

(** The frames held after a run that started holding [held], by address.
    [None]: the run gave back a frame it did not hold at that moment, which
    is what a second release of the same acquire is. *)
Fixpoint frames_held (t : trace) (held : list N) : option (list N) :=
  match t with
  | [] => Some held
  | esp_camera_fb_get (Some f) :: t' => frames_held t' (fb_addr f :: held)
  | esp_camera_fb_return f :: t' =>
      match remove_one (fb_addr f) held with
      | Some held' => frames_held t' held'
      | None => None
      end
  | _ :: t' => frames_held t' held
  end.

(** The same for the blocks that [frame2jpg] allocates.  Freeing a pointer
    into a frame, or a block that is not held, gives [None]. *)
Fixpoint blocks_held (t : trace) (held : list N) : option (list N) :=
  match t with
  | [] => Some held
  | frame2jpg _ _ (Some (a, _)) :: t' => blocks_held t' (a :: held)
  | free (Heap a _) :: t' =>
      match remove_one a held with
      | Some held' => blocks_held t' held'
      | None => None
      end
  | free (FbBuf _) :: t' => None
  | _ :: t' => blocks_held t' held
  end.

(** Counting calls. *)
Definition is_acquire (c : call) : bool :=
  match c with esp_camera_fb_get _ => true | _ => false end.

Definition is_release (c : call) : bool :=
  match c with esp_camera_fb_return _ => true | _ => false end.

Definition is_free (c : call) : bool :=
  match c with free _ => true | _ => false end.

Definition is_failed_write (c : call) : bool :=
  match c with
  | httpd_resp_send_chunk _ r => negb (r =? ESP_OK)
  | _ => false
  end.

Definition is_acquired (c : call) : bool :=
  match c with esp_camera_fb_get (Some _) => true | _ => false end.

Definition is_allocated (c : call) : bool :=
  match c with frame2jpg _ _ (Some _) => true | _ => false end.

Fixpoint count (p : call -> bool) (t : trace) : nat :=
  match t with
  | [] => 0
  | c :: t' => if p c then S (count p t') else count p t'
  end.

(** The calls made after the first chunked write that fails. *)
Fixpoint after_failed_write (t : trace) : option trace :=
  match t with
  | [] => None
  | c :: t' => if is_failed_write c then Some t' else after_failed_write t'
  end.

(** The bytes that reach the client through chunked writes that succeed. *)
Fixpoint chunks_sent (t : trace) : list (list byte) :=
  match t with
  | [] => []
  | httpd_resp_send_chunk data r :: t' =>
      if (r =? ESP_OK) then data :: chunks_sent t' else chunks_sent t'
  | _ :: t' => chunks_sent t'
  end.

(** A complete successful pass: one acquire, three chunked writes that
    succeed, none that fails. *)
Definition complete_pass (t : trace) : Prop :=
  count is_acquire t = 1%nat ∧ count is_failed_write t = 0%nat ∧
  length (chunks_sent t) = 3%nat.

(** ** Sample runs *)

Module Examples.

Import Stream.

Definition jpeg_frame : camera_fb_t :=
  {| fb_addr := 16; buf := [xff; xd8; xff; xd9]%byte; format := PIXFORMAT_JPEG |}.

Definition raw_frame : camera_fb_t :=
  {| fb_addr := 32; buf := [x12; x34]%byte; format := PIXFORMAT_RGB565 |}.

(** A JPEG frame, all writes succeed. *)
Definition ok_jpeg : frame_env :=
  {| cam := Some jpeg_frame; conv := None;
     wr_header := ESP_OK; wr_body := ESP_OK; wr_boundary := ESP_OK |}.

(** A raw frame that is converted, all writes succeed. *)
Definition ok_raw : frame_env :=
  {| cam := Some raw_frame; conv := Some (64%N, [xff; xd8; xd9]%byte);
     wr_header := ESP_OK; wr_body := ESP_OK; wr_boundary := ESP_OK |}.

(** The client is gone when the body is written. *)
Definition body_write_fails : frame_env :=
  {| cam := Some jpeg_frame; conv := None;
     wr_header := ESP_OK; wr_body := ESP_FAIL; wr_boundary := ESP_OK |}.

(** The camera returns no buffer. *)
Definition no_frame : frame_env :=
  {| cam := None; conv := None;
     wr_header := ESP_OK; wr_body := ESP_OK; wr_boundary := ESP_OK |}.

Definition two_then_disconnect (i : nat) : frame_env :=
  match i with
  | 0%nat => ok_jpeg
  | 1%nat => ok_raw
  | _ => body_write_fails
  end.

Definition one_then_no_frame (i : nat) : frame_env :=
  match i with
  | 0%nat => ok_jpeg
  | _ => no_frame
  end.

Definition endless (i : nat) : frame_env := ok_jpeg.

(** Single capture of a raw frame whose conversion fails. *)
Definition conversion_fails : Capture.capture_env :=
  {| Capture.cam := Some raw_frame; Capture.conv := None;
     Capture.wr := ESP_OK |}.

Definition capture_fails : Capture.capture_env :=
  {| Capture.cam := None; Capture.conv := None; Capture.wr := ESP_OK |}.

End Examples.

(** The calls that send something to the client. *)
Definition is_response (c : call) : bool :=
  match c with
  | httpd_resp_send _ _ | httpd_resp_send_chunk _ _ | httpd_resp_send_500 => true
  | _ => false
  end.

Definition is_send_500 (c : call) : bool :=
  match c with httpd_resp_send_500 => true | _ => false end.

(** ** Control endpoints: the light, the page and the commands *)

Module Control.

(** The globals the control handlers read: the motor speed (line 24) and the
    two [extern] variables of lines 21-22. *)
Record globals := mk_globals {
  speed : Z;
  gpLed : Z;
  WiFiAddr : string
}.

(** [digitalWrite(uint8_t pin, uint8_t val)] receives the [int] [gpLed]
    converted to [uint8_t]. *)
Definition to_uint8 (z : Z) : Z := z mod 2 ^ 8.

Definition ledon_handler (gpLed : Z) (r : esp_err_t) : esp_err_t * trace :=
  (r, [ digitalWrite (to_uint8 gpLed) HIGH; Serial_println "LED ON" ]
      ++ Motor.reply_OK r).

Definition ledoff_handler (gpLed : Z) (r : esp_err_t) : esp_err_t * trace :=
  (r, [ digitalWrite (to_uint8 gpLed) LOW; Serial_println "LED OFF" ]
      ++ Motor.reply_OK r).



(** *** The page of [index_handler]

    The literals of lines 113-127 are written with [|] where the source has
    an escaped double quote; [|] does not occur in them otherwise, and
    [quoted] puts the double quotes back. *)

Definition DQ : ascii := "034".
Definition LF : string := String "010" EmptyString.

Fixpoint quoted (s : string) : string :=
  match s with
  | EmptyString => EmptyString
  | String c s' => String (if Ascii.eqb c "|" then DQ else c) (quoted s')
  end.

Definition index_page (WiFiAddr : string) : string :=
  let page := EmptyString in
  let page := (page ++ quoted "<meta name=|viewport| content=|width=device-width, initial-scale=1.0, maximum-scale=1.0, user-scalable=0|>" ++ LF)%string in
  let page := (page ++ "<style>body{font-family:Arial;text-align:center;background:#f0f0f0;}")%string in
  let page := (page ++ "button{width:90px;height:80px;font-size:16px;font-weight:bold;margin:5px;border-radius:10px;}</style>")%string in
  let page := (page ++ "<h2>ESP32 Robot Control</h2>")%string in
  let page := (page ++ ("<p><img src='http://" ++ WiFiAddr ++ ":81/stream' style='width:300px;'></p>"))%string in
  let page := (page ++ "<script>function send(x){fetch('/'+x);}</script>")%string in
  let page := (page ++ quoted "<p><button style='background:green' onmousedown=|send('go')| onmouseup=|send('stop')| ontouchstart=|send('go')| ontouchend=|send('stop')|>Forward</button></p>")%string in
  let page := (page ++ "<p>")%string in
  let page := (page ++ quoted "<button style='background:green' onmousedown=|send('left')| onmouseup=|send('stop')| ontouchstart=|send('left')| ontouchend=|send('stop')|>Left</button>")%string in
  let page := (page ++ quoted "<button style='background:red' onclick=|send('stop')|>STOP</button>")%string in
  let page := (page ++ quoted "<button style='background:green' onmousedown=|send('right')| onmouseup=|send('stop')| ontouchstart=|send('right')| ontouchend=|send('stop')|>Right</button>")%string in
  let page := (page ++ "</p>")%string in
  let page := (page ++ quoted "<p><button style='background:green' onmousedown=|send('back')| onmouseup=|send('stop')| ontouchstart=|send('back')| ontouchend=|send('stop')|>Back</button></p>")%string in
  let page := (page ++ quoted "<p><button style='background:yellow;width:140px;height:40px' onclick=|send('ledon')|>Light ON</button>")%string in
  let page := (page ++ quoted "<button style='background:yellow;width:140px;height:40px' onclick=|send('ledoff')|>Light OFF</button></p>")%string in
  page.

(** [httpd_resp_send(req, page.c_str(), page.length())]. *)
Definition index_handler (WiFiAddr : string) (r : esp_err_t)
  : esp_err_t * trace :=
  let page := index_page WiFiAddr in
  (r, [ httpd_resp_set_type "text/html";
        httpd_resp_send
          (take (String.length page) (list_byte_of_string page)) r ]).

(** *** The commands of the page

    The script of the page requests ['/' + x] for the [x] of each button. *)
Inductive command :=
| CmdGo | CmdBack | CmdLeft | CmdRight | CmdStop | CmdLedOn | CmdLedOff.

Definition commands : list command :=
  [ CmdGo; CmdBack; CmdLeft; CmdRight; CmdStop; CmdLedOn; CmdLedOff ].

Definition name (c : command) : string :=
  match c with
  | CmdGo => "go" | CmdBack => "back" | CmdLeft => "left"
  | CmdRight => "right" | CmdStop => "stop"
  | CmdLedOn => "ledon" | CmdLedOff => "ledoff"
  end.

Definition is_motor (c : command) : bool :=
  match c with CmdLedOn | CmdLedOff => false | _ => true end.

(** The handler that serves a command, run with the result [r] of its
    [httpd_resp_send]. *)
Definition handle (g : globals) (c : command) (r : esp_err_t)
  : esp_err_t * trace :=
  match c with
  | CmdGo => Motor.go_handler (speed g) r
  | CmdBack => Motor.back_handler (speed g) r
  | CmdLeft => Motor.left_handler (speed g) r
  | CmdRight => Motor.right_handler (speed g) r
  | CmdStop => Motor.stop_handler r
  | CmdLedOn => ledon_handler (gpLed g) r
  | CmdLedOff => ledoff_handler (gpLed g) r
  end.

(** The calls of a sequence of requests, served one after the other. *)
Definition session (g : globals) (reqs : list (command * esp_err_t)) : trace :=
  flat_map (λ q, (handle g q.1 q.2).2) reqs.

(** The last motor command and the last light command of a sequence. *)
Definition last_motor (reqs : list (command * esp_err_t)) : option command :=
  last (filter (λ c, is_motor c = true) reqs.*1).


(** Every [ledcWrite] goes to a pin that an earlier [ledcAttach] attached,
    with a duty cycle that fits the resolution given there.  [att] maps the
    attached pins to their resolution in bits. *)
Fixpoint writes_fit (t : trace) (att : gmap Z Z) : bool :=
  match t with
  | [] => true
  | ledcAttach pin _ resolution :: t' => writes_fit t' (<[pin := resolution]> att)
  | ledcWrite pin duty :: t' =>
      match att !! pin with
      | Some resolution =>
          (0 <=? duty) && (duty <? 2 ^ resolution) && writes_fit t' att
      | None => false
      end
  | _ :: t' => writes_fit t' att
  end.

(** The pins attached after a run, with their resolution. *)
Definition attach_step (att : gmap Z Z) (c : call) : gmap Z Z :=
  match c with
  | ledcAttach pin _ resolution => <[pin := resolution]> att
  | _ => att
  end.

Definition attached_after (t : trace) (att : gmap Z Z) : gmap Z Z :=
  foldl attach_step att t.


(** The levels written with [digitalWrite], in order. *)
Fixpoint digital_writes (t : trace) : list (Z * level_t) :=
  match t with
  | [] => []
  | digitalWrite pin v :: t' => (pin, v) :: digital_writes t'
  | _ :: t' => digital_writes t'
  end.

(** [needle] occurs in [s]. *)
Definition occurs (needle s : string) : Prop :=
  ∃ a b, s = (a ++ needle ++ b)%string.

(** The rest of [s] after the prefix [p], when [s] starts with [p]. *)
Fixpoint strip_prefix (p s : string) : option string :=
  match p, s with
  | EmptyString, _ => Some s
  | String c p', String d s' =>
      if Ascii.eqb c d then strip_prefix p' s' else None
  | String _ _, EmptyString => None
  end.

(** The first occurrence of [needle] in [s]: what is before and after it. *)
Fixpoint find_sub (needle s : string) : option (string * string) :=
  match strip_prefix needle s with
  | Some rest => Some (EmptyString, rest)
  | None =>
      match s with
      | EmptyString => None
      | String c s' =>
          match find_sub needle s' with
          | Some (a, b) => Some (String c a, b)
          | None => None
          end
      end
  end.

End Control.

(** ** Server wiring *)

Module Server.

Inductive httpd_method_t := HTTP_DELETE | HTTP_GET | HTTP_HEAD | HTTP_POST | HTTP_PUT.

(** The handlers of the file, as the [.handler] fields name them. *)
Inductive handler_t :=
| index_handler | go_handler | back_handler | stop_handler | left_handler
| right_handler | ledon_handler | ledoff_handler | capture_handler
| stream_handler.

Record httpd_uri_t := mk_uri {
  uri : string;
  method : httpd_method_t;
  handler : handler_t
}.

Definition index_uri := {| uri := "/"; method := HTTP_GET; handler := index_handler |}.
Definition go_uri := {| uri := "/go"; method := HTTP_GET; handler := go_handler |}.
Definition back_uri := {| uri := "/back"; method := HTTP_GET; handler := back_handler |}.
Definition stop_uri := {| uri := "/stop"; method := HTTP_GET; handler := stop_handler |}.
Definition left_uri := {| uri := "/left"; method := HTTP_GET; handler := left_handler |}.
Definition right_uri := {| uri := "/right"; method := HTTP_GET; handler := right_handler |}.
Definition ledon_uri := {| uri := "/ledon"; method := HTTP_GET; handler := ledon_handler |}.
Definition ledoff_uri := {| uri := "/ledoff"; method := HTTP_GET; handler := ledoff_handler |}.
Definition capture_uri := {| uri := "/capture"; method := HTTP_GET; handler := capture_handler |}.
Definition stream_uri := {| uri := "/stream"; method := HTTP_GET; handler := stream_handler |}.

(** The entries registered on the control server, in the order of lines
    342-350. *)
Definition control_uris : list httpd_uri_t :=
  [ index_uri; go_uri; back_uri; stop_uri; left_uri; right_uri;
    ledon_uri; ledoff_uri; capture_uri ].

(** The fields of [httpd_config_t] that [startCameraServer] sets or that
    decide what a registration does.  [HTTPD_DEFAULT_CONFIG()] is the
    vendor's; its value is a parameter of [startCameraServer] here. *)
Record httpd_config_t := mk_config {
  server_port : Z;
  ctrl_port : Z;
  max_uri_handlers : nat
}.

(** The two global handles. *)
Inductive server_t := camera_httpd | stream_httpd.

Inductive server_call :=
| Serial_printf (fmt : string) (arg : Z)
| httpd_start (handle : server_t) (config : httpd_config_t) (r : esp_err_t)
| httpd_register_uri_handler (handle : server_t) (u : httpd_uri_t).

(** [server_port] and [ctrl_port] are [uint16_t]. *)
Definition to_uint16 (z : Z) : Z := z mod 2 ^ 16.

Definition startCameraServer (default : httpd_config_t) (r80 r81 : esp_err_t)
  : list server_call :=
  let config := {| server_port := to_uint16 80; ctrl_port := ctrl_port default;
                   max_uri_handlers := max_uri_handlers default |} in
  let t1 :=
    [ Serial_printf ("Starting web server on port: '%d'" ++ Control.LF)%string
        (server_port config);
      httpd_start camera_httpd config r80 ]
    ++ (if (r80 =? ESP_OK)%Z then
          [ httpd_register_uri_handler camera_httpd index_uri;
            httpd_register_uri_handler camera_httpd go_uri;
            httpd_register_uri_handler camera_httpd back_uri;
            httpd_register_uri_handler camera_httpd stop_uri;
            httpd_register_uri_handler camera_httpd left_uri;
            httpd_register_uri_handler camera_httpd right_uri;
            httpd_register_uri_handler camera_httpd ledon_uri;
            httpd_register_uri_handler camera_httpd ledoff_uri;
            httpd_register_uri_handler camera_httpd capture_uri ]
        else []) in
  let config := {| server_port := to_uint16 81;
                   ctrl_port := to_uint16 (ctrl_port config + 1);
                   max_uri_handlers := max_uri_handlers config |} in
  let t2 :=
    [ Serial_printf ("Starting stream server on port: '%d'" ++ Control.LF)%string
        (server_port config);
      httpd_start stream_httpd config r81 ]
    ++ (if (r81 =? ESP_OK)%Z then
          [ httpd_register_uri_handler stream_httpd stream_uri ]
        else []) in
  t1 ++ t2.

(** *** What the HTTP server keeps

    A server that started holds its configuration and a table of at most
    [max_uri_handlers] entries.  A registration is refused when an entry
    with the same URI and method exists or when the table is full; the
    firmware does not look at the result.  A request is served by the entry
    whose URI and method it matches. *)

Definition method_eqb (a b : httpd_method_t) : bool :=
  match a, b with
  | HTTP_DELETE, HTTP_DELETE | HTTP_GET, HTTP_GET | HTTP_HEAD, HTTP_HEAD
  | HTTP_POST, HTTP_POST | HTTP_PUT, HTTP_PUT => true
  | _, _ => false
  end.

Definition matches (path : string) (m : httpd_method_t) (u : httpd_uri_t) : bool :=
  String.eqb path (uri u) && method_eqb m (method u).

Definition find_handler (table : list httpd_uri_t) (path : string)
    (m : httpd_method_t) : option handler_t :=
  match List.find (matches path m) table with
  | Some u => Some (handler u)
  | None => None
  end.

Definition register (max : nat) (table : list httpd_uri_t) (u : httpd_uri_t)
  : list httpd_uri_t :=
  if existsb (matches (uri u) (method u)) table then table
  else if (length table <? max)%nat then table ++ [u]
  else table.

Record server := mk_server {
  config_of : httpd_config_t;
  table_of : list httpd_uri_t
}.

(** The servers that run after the calls of [t]: [None] for a handle whose
    [httpd_start] failed or was not called. *)
Record servers := mk_servers {
  camera : option server;
  stream : option server
}.

Definition get (h : server_t) (s : servers) : option server :=
  match h with camera_httpd => camera s | stream_httpd => stream s end.

Definition set (h : server_t) (v : option server) (s : servers) : servers :=
  match h with
  | camera_httpd => {| camera := v; stream := stream s |}
  | stream_httpd => {| camera := camera s; stream := v |}
  end.

Definition server_step (s : servers) (c : server_call) : servers :=
  match c with
  | Serial_printf _ _ => s
  | httpd_start h config r =>
      if (r =? ESP_OK)%Z
      then set h (Some {| config_of := config; table_of := [] |}) s
      else s
  | httpd_register_uri_handler h u =>
      match get h s with
      | Some sv =>
          set h (Some {| config_of := config_of sv;
                         table_of := register (max_uri_handlers (config_of sv))
                                       (table_of sv) u |}) s
      | None => s
      end
  end.

Definition servers_after (t : list server_call) : servers :=
  foldl server_step {| camera := None; stream := None |} t.

(** The registrations of a run on one handle, in order. *)
Fixpoint registered_on (h : server_t) (t : list server_call) : list httpd_uri_t :=
  match t with
  | [] => []
  | httpd_register_uri_handler h' u :: t' =>
      match h, h' with
      | camera_httpd, camera_httpd | stream_httpd, stream_httpd =>
          u :: registered_on h t'
      | _, _ => registered_on h t'
      end
  | _ :: t' => registered_on h t'
  end.

(** The handler a command of the page is meant for. *)
Definition handler_of (c : Control.command) : handler_t :=
  match c with
  | Control.CmdGo => go_handler
  | Control.CmdBack => back_handler
  | Control.CmdLeft => left_handler
  | Control.CmdRight => right_handler
  | Control.CmdStop => stop_handler
  | Control.CmdLedOn => ledon_handler
  | Control.CmdLedOff => ledoff_handler
  end.

End Server.

(** ** Reading runs of the camera handlers *)

Definition is_chunk (c : call) : bool :=
  match c with httpd_resp_send_chunk _ _ => true | _ => false end.

Definition is_send (c : call) : bool :=
  match c with httpd_resp_send _ _ => true | _ => false end.


(** The data of every [httpd_resp_send]. *)
Fixpoint bodies_sent (t : trace) : list (list byte) :=
  match t with
  | [] => []
  | httpd_resp_send data _ :: t' => data :: bodies_sent t'
  | _ :: t' => bodies_sent t'
  end.

(** The calls made after the first call that satisfies [p]. *)
Fixpoint after_first (p : call -> bool) (t : trace) : option trace :=
  match t with
  | [] => None
  | c :: t' => if p c then Some t' else after_first p t'
  end.

(** The number of calls satisfying [q] that come after the first call
    satisfying [p]. *)
Definition count_after (p q : call -> bool) (t : trace) : nat :=
  match after_first p t with
  | Some post => count q post
  | None => 0
  end.

(** The first result that is not [ESP_OK]; [ESP_OK] when there is none. *)
Fixpoint first_error (rs : list esp_err_t) : esp_err_t :=
  match rs with
  | [] => ESP_OK
  | r :: rs' => if (r =? ESP_OK)%Z then first_error rs' else r
  end.

(** The error that ends the loop in a pass that is not a successful
    cycle: [ESP_FAIL] when no JPEG body is obtained, otherwise the result of
    the first write that fails. *)
Definition pass_error (e : Stream.frame_env) : esp_err_t :=
  if Stream.delivers e
  then first_error [Stream.wr_header e; Stream.wr_body e; Stream.wr_boundary e]
  else ESP_FAIL.

(** *** Reading a part header back

    What a client does with the header of a part: after the fixed text it
    reads decimal digits up to the line end. *)

Definition digit_of (c : ascii) : option N :=
  let n := N_of_ascii c in
  if ((48 <=? n) && (n <=? 57))%N then Some (n - 48)%N else None.

Fixpoint atou_from (s : string) (acc : N) : option N :=
  match s with
  | EmptyString => Some acc
  | String c s' =>
      match digit_of c with
      | Some d => atou_from s' (10 * acc + d)%N
      | None => None
      end
  end.

Definition atou (s : string) : option N :=
  match s with
  | EmptyString => None
  | _ => atou_from s 0%N
  end.

(** The longest prefix of digits, and the rest. *)
Fixpoint span_digits (s : string) : string * string :=
  match s with
  | EmptyString => (EmptyString, EmptyString)
  | String c s' =>
      match digit_of c with
      | Some _ => let '(ds, rest) := span_digits s' in (String c ds, rest)
      | None => (EmptyString, s)
      end
  end.

Definition parse_part_header (h : list byte) : option N :=
  match Control.strip_prefix
          ("Content-Type: image/jpeg" ++ Fmt.CRLF ++ "Content-Length: ")%string
          (string_of_list_byte h) with
  | Some rest =>
      let '(ds, tail) := span_digits rest in
      if String.eqb tail (Fmt.CRLF ++ Fmt.CRLF)%string then atou ds else None
  | None => None
  end.

(** ** Proof automation *)

(** Distinctness of a list of pins. *)
Ltac solve_NoDup_pins :=
  unfold Motor.channels, Motor.LEFT_M0, Motor.LEFT_M1, Motor.RIGHT_M0,
    Motor.RIGHT_M1;
  repeat (apply NoDup_cons_2;
          [ rewrite ?not_elem_of_cons; repeat split;
            first [ apply not_elem_of_nil | discriminate ] | ]);
  apply NoDup_nil_2.

(** Case analysis over what the environment answers in one pass. *)
Ltac run_iteration e :=
  unfold Stream.pass_trace, Stream.pass_res, Stream.init_locals;
  unfold Stream.iteration, Stream.acquire, Stream.send, Stream.release;
  destruct e as [[[a b fmt] |] [[ca cd] |] w1 w2 w3];
  cbn [Stream.cam Stream.conv Stream.wr_header Stream.wr_body
       Stream.wr_boundary format Stream.fb Stream.res
       Stream._jpg_buf Stream._jpg_buf_len];
  try destruct (is_jpeg fmt) eqn:Efmt;
  cbn [negb Stream.fb Stream.res Stream._jpg_buf Stream._jpg_buf_len];
  repeat match goal with
         | |- context [(?r =? ESP_OK)%Z] =>
             let E := fresh "E" in
             destruct (r =? ESP_OK)%Z eqn:E;
             cbn [negb Stream.fb Stream.res Stream._jpg_buf
                  Stream._jpg_buf_len fst snd]
         | |- context [Fmt.snprintf ?a ?b ?c] =>
             destruct (Fmt.snprintf a b c);
             cbn [negb Stream.fb Stream.res Stream._jpg_buf
                  Stream._jpg_buf_len fst snd]
         end.

Ltac rewrite_eqb :=
  repeat match goal with
         | H : (?r =? ESP_OK)%Z = _ |- context [(?r =? ESP_OK)%Z] => rewrite H
         end.

Ltac finish_pass :=
  cbn; rewrite_eqb; cbn; repeat split;
  first [ done | by apply Z.eqb_eq | by apply Z.eqb_neq ].


(** * Properties *)

(** ** Motor driver *)

Section MotorFacts.

Import Motor.

Lemma to_uint32_small (speed : Z) : 0 ≤ speed ≤ 255 → to_uint32 speed = speed.
Proof. intros H. unfold to_uint32. apply Z.mod_small. lia. Qed.

(** The writes of each direction, for a speed that fits the 8-bit duty. *)
Lemma ledc_writes_robot (speed : Z) (d : direction) :
  0 ≤ speed ≤ 255 →
  ledc_writes (robot d speed) =
    match d with
    | Fwd => [(LEFT_M0, speed); (LEFT_M1, 0); (RIGHT_M0, 0); (RIGHT_M1, speed)]
    | Back => [(LEFT_M0, 0); (LEFT_M1, speed); (RIGHT_M0, speed); (RIGHT_M1, 0)]
    | Left => [(LEFT_M0, 0); (LEFT_M1, speed); (RIGHT_M0, 0); (RIGHT_M1, speed)]
    | Right => [(LEFT_M0, speed); (LEFT_M1, 0); (RIGHT_M0, speed); (RIGHT_M1, 0)]
    end.
Proof.
  intros H. destruct d; simpl; rewrite (to_uint32_small speed H); reflexivity.
Qed.

Lemma pwm_run_app (t1 t2 : trace) (m : gmap Z Z) :
  pwm_run (t1 ++ t2) m = pwm_run t2 (pwm_run t1 m).
Proof. unfold pwm_run. apply foldl_app. Qed.

(** After [robot_stop] the four channels hold 0, whatever they held. *)
Lemma pwm_run_robot_stop (m : gmap Z Z) (p : Z) :
  p ∈ channels → pwm_run robot_stop m !! p = Some 0.
Proof.
  unfold channels, LEFT_M0, LEFT_M1, RIGHT_M0, RIGHT_M1. intros Hp.
  repeat (apply elem_of_cons in Hp as [-> | Hp]);
    [ | | | | by apply elem_of_nil in Hp ];
    cbn; unfold LEFT_M0, LEFT_M1, RIGHT_M0, RIGHT_M1; by simplify_map_eq.
Qed.

(** C1, as the code has it: with Motor Speed 150 the forward operation
    behind [/go] writes 150 to LEFT_M0 (pin 13) and to RIGHT_M1 (pin 15),
    and 0 to LEFT_M1 (pin 12) and to RIGHT_M0 (pin 14); these are the duty
    cycles the four channels hold when the handler returns. *)
Theorem go_handler_150_duties (m : gmap Z Z) (r : esp_err_t) :
  ledc_writes (go_handler 150 r).2 =
    [(LEFT_M0, 150); (LEFT_M1, 0); (RIGHT_M0, 0); (RIGHT_M1, 150)] ∧
  let m' := pwm_run (go_handler 150 r).2 m in
  m' !! LEFT_M0 = Some 150 ∧ m' !! LEFT_M1 = Some 0 ∧
  m' !! RIGHT_M0 = Some 0 ∧ m' !! RIGHT_M1 = Some 150.
Proof.
  split; [reflexivity |].
  cbn. unfold LEFT_M0, LEFT_M1, RIGHT_M0, RIGHT_M1.
  change (to_uint32 150) with 150.
  repeat split; by simplify_map_eq.
Qed.

(** C1 as stated fails: after the forward operation with Motor Speed 150
    the channels do not hold left-forward (pin 12) = 150, left-backward
    (pin 13) = 0, right-forward (pin 15) = 0, right-backward (pin 14) = 150. *)
Lemma go_handler_150_not_as_claimed :
  let m' := pwm_run (go_handler 150 ESP_OK).2 ∅ in
  ¬ (m' !! LEFT_M1 = Some 150 ∧ m' !! LEFT_M0 = Some 0 ∧
     m' !! RIGHT_M1 = Some 0 ∧ m' !! RIGHT_M0 = Some 150).
Proof.
  intros m' [H _]. vm_compute in H. discriminate H.
Qed.

Lemma NoDup_channels : NoDup channels.
Proof. solve_NoDup_pins. Qed.

Lemma pins_written_with_robot (speed : Z) (d : direction) :
  1 ≤ speed ≤ 255 →
  pins_written_with speed (robot d speed) =
    match d with
    | Fwd => [LEFT_M0; RIGHT_M1]
    | Back => [LEFT_M1; RIGHT_M0]
    | Left => [LEFT_M1; RIGHT_M1]
    | Right => [LEFT_M0; RIGHT_M0]
    end ∧
  pins_written_with 0 (robot d speed) =
    match d with
    | Fwd => [LEFT_M1; RIGHT_M0]
    | Back => [LEFT_M0; RIGHT_M1]
    | Left => [LEFT_M0; RIGHT_M0]
    | Right => [LEFT_M1; RIGHT_M1]
    end.
Proof.
  intros H. unfold pins_written_with.
  rewrite ledc_writes_robot by lia.
  destruct d; split;
    repeat (rewrite filter_cons; cbn [snd]; case_decide; try lia);
    rewrite filter_nil; reflexivity.
Qed.

(** C5: for a Motor Speed in [1,255] each of the four direction operations
    issues exactly four duty-cycle writes, one to each PWM channel; two of
    the channels are written with Motor Speed and the other two with 0; and
    [robot_stop] writes 0 to each of the four channels. *)
Theorem direction_writes_two_of_four (speed : Z) (d : direction) :
  1 ≤ speed ≤ 255 →
  length (ledc_writes (robot d speed)) = 4%nat ∧
  (ledc_writes (robot d speed)).*1 = channels ∧
  (∃ a b c e : Z,
      pins_written_with speed (robot d speed) = [a; b] ∧
      pins_written_with 0 (robot d speed) = [c; e] ∧
      [a; b; c; e] ≡ₚ channels ∧ NoDup channels) ∧
  ledc_writes robot_stop = (λ p, (p, 0)) <$> channels.
Proof.
  intros H.
  pose proof NoDup_channels as Hnd.
  destruct (pins_written_with_robot speed d H) as [Hs H0].
  rewrite ledc_writes_robot by lia.
  split; [by destruct d |]. split; [by destruct d |]. split; [| reflexivity].
  rewrite Hs, H0.
  destruct d; do 4 eexists; (split; [reflexivity |]);
    (split; [reflexivity |]); (split; [| exact Hnd]);
    (apply NoDup_Permutation; [solve_NoDup_pins | exact Hnd |]);
    intros x; unfold channels; rewrite !elem_of_cons; tauto.
Qed.

Lemma direction_writes_two_of_four_witness :
  1 ≤ 150 ≤ 255 ∧
  length (ledc_writes (robot Left 150)) = 4%nat ∧
  (ledc_writes (robot Left 150)).*1 = channels ∧
  (∃ a b c e : Z,
      pins_written_with 150 (robot Left 150) = [a; b] ∧
      pins_written_with 0 (robot Left 150) = [c; e] ∧
      [a; b; c; e] ≡ₚ channels ∧ NoDup channels) ∧
  ledc_writes robot_stop = (λ p, (p, 0)) <$> channels.
Proof.
  split; [lia |]. apply (direction_writes_two_of_four 150 Left). lia.
Defined.

Lemma nonzero_channels_robot (speed : Z) (d : direction) :
  1 ≤ speed ≤ 255 →
  nonzero_channels (robot d speed) =
    match d with
    | Fwd => {[LEFT_M0; RIGHT_M1]}
    | Back => {[LEFT_M1; RIGHT_M0]}
    | Left => {[LEFT_M1; RIGHT_M1]}
    | Right => {[LEFT_M0; RIGHT_M0]}
    end.
Proof.
  intros H. unfold nonzero_channels.
  rewrite ledc_writes_robot by lia.
  destruct d;
    repeat (rewrite filter_cons; cbn [snd]; case_decide; try lia);
    rewrite filter_nil; cbn; set_solver.
Qed.

(** C8: for a Motor Speed in [1,255], two distinct directions among
    forward, backward, left and right never write the same set of channels
    with a nonzero duty cycle. *)
Theorem distinct_directions_distinct_channels (speed : Z) (d1 d2 : direction) :
  1 ≤ speed ≤ 255 → d1 ≠ d2 →
  nonzero_channels (robot d1 speed) ≠ nonzero_channels (robot d2 speed).
Proof.
  intros H Hne Heq.
  rewrite !nonzero_channels_robot in Heq by done.
  unfold LEFT_M0, LEFT_M1, RIGHT_M0, RIGHT_M1 in Heq.
  destruct d1, d2; try congruence; set_solver.
Qed.

Lemma distinct_directions_distinct_channels_witness :
  1 ≤ 150 ≤ 255 ∧ Fwd ≠ Left ∧
  nonzero_channels (robot Fwd 150) ≠ nonzero_channels (robot Left 150).
Proof.
  split; [lia |]. split; [discriminate |].
  apply (distinct_directions_distinct_channels 150 Fwd Left); [lia | discriminate].
Defined.

(** C9: when [robot_setup] has run, the four motor channels hold duty cycle
    0, whatever they held before: the last duty-cycle writes of the setup
    are those of [robot_stop]. *)
Theorem robot_setup_stops (m : gmap Z Z) :
  (∃ pre post, robot_setup = pre ++ robot_stop ++ post ∧
               ledc_writes pre = [] ∧ ledc_writes post = []) ∧
  Forall (λ p, pwm_run robot_setup m !! p = Some 0) channels.
Proof.
  split.
  - unfold robot_setup. do 2 eexists. split; [reflexivity |]. by split.
  - apply Forall_forall. intros p Hp. unfold robot_setup.
    rewrite !pwm_run_app.
    change (pwm_run [Serial_println "Motors initialized"] ?m) with m.
    by apply pwm_run_robot_stop.
Qed.

End MotorFacts.

(** ** The per-part header *)

Section FmtFacts.

Import Fmt.
Local Open Scope N_scope.

Lemma digits_lsb_value (fuel : nat) : ∀ n : N,
  n < 2 ^ N.of_nat fuel → value_lsb (digits_lsb fuel n) = n.
Proof.
  induction fuel as [| fuel IH]; intros n Hn.
  - cbn in *. lia.
  - cbn [digits_lsb value_lsb].
    pose proof (N.div_mod n 10 ltac:(lia)) as Hdm.
    destruct (N.eqb_spec (n / 10) 0) as [H0 | H0].
    + cbn. lia.
    + rewrite IH; [lia |].
      rewrite Nat2N.inj_succ, N.pow_succ_r' in Hn.
      apply N.Div0.div_lt_upper_bound. lia.
Qed.

Lemma digits_lsb_digit (fuel : nat) : ∀ n : N,
  Forall (λ d, d < 10) (digits_lsb fuel n).
Proof.
  induction fuel as [| fuel IH]; intros n; cbn [digits_lsb]; [constructor |].
  constructor; [apply N.mod_lt; lia |].
  destruct (n / 10 =? 0); [constructor | apply IH].
Qed.

Lemma digits_lsb_length (fuel : nat) : ∀ (n : N) (k : nat),
  n < 10 ^ N.of_nat k → (1 ≤ k)%nat → (length (digits_lsb fuel n) ≤ k)%nat.
Proof.
  induction fuel as [| fuel IH]; intros n k Hn Hk; cbn [digits_lsb length].
  - lia.
  - destruct (N.eqb_spec (n / 10) 0) as [H0 | H0]; cbn [length]; [lia |].
    destruct k as [| [| k]]; [lia | |].
    + cbn in Hn. exfalso. apply H0. apply N.div_small. lia.
    + specialize (IH (n / 10) (S k)).
      enough (length (digits_lsb fuel (n / 10)) ≤ S k)%nat by lia.
      apply IH; [| lia].
      rewrite (Nat2N.inj_succ (S k)), N.pow_succ_r' in Hn.
      apply N.Div0.div_lt_upper_bound. lia.
Qed.

(** [utoa] prints the number it is given: its characters are decimal
    digits and they denote [n]. *)
Lemma utoa_denotes (n : N) :
  ∃ ds, utoa n = string_of_list_ascii (map digit_char (rev ds)) ∧
        Forall (λ d, d < 10) ds ∧ value_lsb ds = n.
Proof.
  eexists. split; [reflexivity |]. split; [apply digits_lsb_digit |].
  apply digits_lsb_value.
  rewrite Nat2N.inj_succ, N2Nat.id, N.pow_succ_r'.
  pose proof (N.size_gt n). lia.
Qed.

Lemma length_string_of_list_ascii (l : list ascii) :
  String.length (string_of_list_ascii l) = length l.
Proof. induction l; cbn; congruence. Qed.

Lemma length_list_byte_of_string (s : string) :
  length (list_byte_of_string s) = String.length s.
Proof.
  unfold list_byte_of_string. rewrite length_map.
  induction s; cbn; congruence.
Qed.

Lemma length_append (s1 s2 : string) :
  String.length (String.append s1 s2) = (String.length s1 + String.length s2)%nat.
Proof. induction s1 as [| a s1 IH]; simpl; [done | by rewrite IH]. Qed.

Lemma utoa_length_u32 (n : N) :
  n < 2 ^ 32 → (1 ≤ String.length (utoa n) ≤ 10)%nat.
Proof.
  intros Hn. unfold utoa.
  rewrite length_string_of_list_ascii, length_map, length_rev.
  split; [cbn [digits_lsb length]; lia |].
  apply digits_lsb_length; [| lia].
  change (10 ^ N.of_nat 10) with 10000000000. change (2 ^ 32) with 4294967296 in Hn.
  lia.
Qed.

Lemma format_STREAM_PART (n : N) :
  format_u _STREAM_PART n =
    String.append "Content-Type: image/jpeg"
      (String.append CRLF
         (String.append "Content-Length: "
            (String.append (utoa (to_uint32 n)) (String.append CRLF CRLF)))).
Proof. reflexivity. Qed.

Lemma format_STREAM_PART_length (n : N) :
  String.length (format_u _STREAM_PART n) =
    (46 + String.length (utoa (to_uint32 n)))%nat.
Proof.
  rewrite format_STREAM_PART, !length_append. cbn. lia.
Qed.

Lemma snprintf_STREAM_PART (n : N) :
  let text := list_byte_of_string (format_u _STREAM_PART n) in
  n < 2 ^ 32 →
  (47 ≤ length text ≤ 56)%nat ∧
  snprintf 64 _STREAM_PART n = (text ++ [x00%byte], N.of_nat (length text)) ∧
  take (N.to_nat (snprintf 64 _STREAM_PART n).2) (snprintf 64 _STREAM_PART n).1
    = text.
Proof.
  intros text Hn.
  assert (Hlen : (47 ≤ length text ≤ 56)%nat).
  { unfold text. rewrite length_list_byte_of_string, format_STREAM_PART_length.
    assert (Hu : to_uint32 n = n) by (apply N.mod_small; exact Hn).
    rewrite Hu. pose proof (utoa_length_u32 n Hn). lia. }
  split; [exact Hlen |].
  assert (Hsn : snprintf 64 _STREAM_PART n
                = (text ++ [x00%byte], N.of_nat (length text))).
  { unfold snprintf. fold text. rewrite take_ge by lia. reflexivity. }
  split; [exact Hsn |].
  rewrite Hsn. cbn [fst snd]. rewrite Nat2N.id.
  rewrite take_app_le by lia. apply take_ge. lia.
Qed.

(** C10: for a frame length [n] that fits an unsigned 32-bit integer, the
    formatted header [Content-Type: image/jpeg\r\nContent-Length: <n>\r\n\r\n]
    has at most 56 bytes, below the bound 64 given to [snprintf]: nothing is
    cut off, the length [snprintf] returns is the length of the whole
    header, and the first chunk the streaming handler writes is the whole
    header. *)
Theorem part_header_fits (n : N) :
  n < 2 ^ 32 →
  let header :=
    String.append "Content-Type: image/jpeg"
      (String.append CRLF
         (String.append "Content-Length: "
            (String.append (utoa n) (String.append CRLF CRLF)))) in
  format_u _STREAM_PART n = header ∧
  (String.length header ≤ 56 < 64)%nat ∧
  snprintf 64 _STREAM_PART n =
    (list_byte_of_string header ++ [x00%byte],
     N.of_nat (String.length header)) ∧
  ∀ (e : Stream.frame_env) (f : option camera_fb_t) (p : option jpg_ptr),
    head (Stream.send e
            {| Stream.fb := f; Stream.res := ESP_OK;
               Stream._jpg_buf_len := n; Stream._jpg_buf := p |}).2
    = Some (httpd_resp_send_chunk (list_byte_of_string header)
              (Stream.wr_header e)).
Proof.
  intros Hn header.
  assert (Hfmt : format_u _STREAM_PART n = header).
  { rewrite format_STREAM_PART. unfold header, to_uint32.
    by rewrite (N.mod_small n (2 ^ 32) Hn). }
  destruct (snprintf_STREAM_PART n Hn) as (Hlen & Hsn & Htake).
  rewrite Hfmt in Hlen, Hsn, Htake.
  rewrite length_list_byte_of_string in Hlen, Hsn.
  split; [exact Hfmt |]. split; [lia |]. split; [exact Hsn |].
  intros e f p. unfold Stream.send.
  cbn [Stream.res Stream._jpg_buf_len Stream._jpg_buf Stream.fb].
  change (ESP_OK =? ESP_OK)%Z with true. cbv iota.
  rewrite Hsn in Htake |- *. cbn [fst snd] in Htake. rewrite Htake.
  destruct (Stream.wr_header e =? ESP_OK)%Z eqn:E1;
    repeat first [rewrite E1 | progress cbv beta iota zeta];
    [| reflexivity].
  destruct (Stream.wr_body e =? ESP_OK)%Z eqn:E2;
    repeat first [rewrite E2 | progress cbv beta iota zeta];
    reflexivity.
Qed.

Lemma part_header_fits_witness :
  4294967295 < 2 ^ 32 ∧
  String.length (format_u _STREAM_PART 4294967295) = 56%nat ∧
  (snprintf 64 _STREAM_PART 4294967295).2 = 56.
Proof.
  assert (H : 4294967295 < 2 ^ 32) by reflexivity.
  destruct (part_header_fits 4294967295 H) as (Hfmt & _ & Hsn & _).
  split; [exact H |]. split; [by rewrite Hfmt | by rewrite Hsn].
Defined.

End FmtFacts.

(** ** Buffer ownership *)

Section Ownership.

Import Stream.

Lemma frames_held_app (t1 t2 : trace) : ∀ h,
  frames_held (t1 ++ t2) h =
    match frames_held t1 h with
    | Some h' => frames_held t2 h'
    | None => None
    end.
Proof.
  induction t1 as [| c t1 IH]; intros h; [done |].
  destruct c as [| | | | | [f |] | f | | | | | | |]; cbn; try apply IH.
  destruct (remove_one (fb_addr f) h); [apply IH | done].
Qed.

Lemma blocks_held_app (t1 t2 : trace) : ∀ h,
  blocks_held (t1 ++ t2) h =
    match blocks_held t1 h with
    | Some h' => blocks_held t2 h'
    | None => None
    end.
Proof.
  induction t1 as [| c t1 IH]; intros h; [done |].
  destruct c as [| | | | | | | f q [[a d] |] | [f | a d] | | | | |];
    cbn; try apply IH; try done.
  destruct (remove_one a h); [apply IH | done].
Qed.

Lemma remove_one_length (a : N) (l l' : list N) :
  remove_one a l = Some l' → length l = S (length l').
Proof.
  revert l'. induction l as [| x l IH]; intros l' H; cbn in H; [done |].
  destruct (a =? x)%N; [by inversion H |].
  destruct (remove_one a l) as [r |]; [| done].
  inversion H; subst. cbn. by rewrite (IH r).
Qed.

(** A run that ends holding what it started with has released as many
    frames as it has acquired. *)
Lemma frames_held_count (t : trace) : ∀ h h',
  frames_held t h = Some h' →
  (length h + count is_acquired t = length h' + count is_release t)%nat.
Proof.
  induction t as [| c t IH]; intros h h' H; cbn in H.
  - inversion H. cbn. lia.
  - destruct c as [| | | | | [f |] | f | | | | | | |];
      cbn [count is_acquired is_release]; try (by apply IH).
    + apply IH in H. cbn in H. lia.
    + destruct (remove_one (fb_addr f) h) as [r |] eqn:Hr; [| done].
      apply remove_one_length in Hr. apply IH in H. lia.
Qed.

Lemma blocks_held_count (t : trace) : ∀ h h',
  blocks_held t h = Some h' →
  (length h + count is_allocated t = length h' + count is_free t)%nat.
Proof.
  induction t as [| c t IH]; intros h h' H; cbn in H.
  - inversion H. cbn. lia.
  - destruct c as [| | | | | | | f q [[a d] |] | [f | a d] | | | | |];
      cbn [count is_allocated is_free]; try done; try (by apply IH).
    + apply IH in H. cbn in H. lia.
    + destruct (remove_one a h) as [r |] eqn:Hr; [| done].
      apply remove_one_length in Hr. apply IH in H. lia.
Qed.

(** Every pass gives back what it took and leaves the loop-head state,
    apart from [res]. *)
Lemma iteration_balanced (e : frame_env) (s : locals) :
  at_loop_head s →
  fb (iteration e s).1 = None ∧ _jpg_buf (iteration e s).1 = None ∧
  (∀ h, frames_held (iteration e s).2 h = Some h) ∧
  (∀ h, blocks_held (iteration e s).2 h = Some h).
Proof.
  intros (Hfb & Hbuf & Hres). destruct s as [sfb sres slen sbuf].
  cbn in Hfb, Hbuf, Hres. subst.
  run_iteration e; try discriminate;
    (split; [reflexivity |]); (split; [reflexivity |]);
    split; intros h; cbn; rewrite ?N.eqb_refl; reflexivity.
Qed.

Lemma loop_balanced (fuel : nat) : ∀ (env : nat → frame_env) (i : nat) (s : locals),
  at_loop_head s →
  ∀ h, frames_held (loop fuel env i s).2 h = Some h ∧
       blocks_held (loop fuel env i s).2 h = Some h.
Proof.
  induction fuel as [| fuel IH]; intros env i s Hs h; [done |].
  cbn [loop].
  destruct (iteration_balanced (env i) s Hs) as (Hfb & Hbuf & Hfr & Hbl).
  destruct (iteration (env i) s) as [s' t]. cbn [fst snd] in *.
  destruct (res s' =? ESP_OK)%Z eqn:Eres; cbn [negb].
  - assert (Hs' : at_loop_head s') by (repeat split; [done | done | lia]).
    specialize (IH env (S i) s' Hs' h).
    destruct (loop fuel env (S i) s') as [r t']. cbn [snd] in *.
    rewrite frames_held_app, blocks_held_app, Hfr, Hbl. exact IH.
  - cbn [snd]. by rewrite Hfr, Hbl.
Qed.

Lemma stream_handler_balanced (fuel : nat) (set_type : esp_err_t)
    (env : nat → frame_env) :
  frames_held (stream_handler fuel set_type env).2 [] = Some [] ∧
  blocks_held (stream_handler fuel set_type env).2 [] = Some [].
Proof.
  unfold stream_handler.
  destruct (set_type =? ESP_OK)%Z; cbn [negb]; [| done].
  assert (H0 : at_loop_head init_locals) by done.
  pose proof (loop_balanced fuel env 0%nat init_locals H0 []) as H.
  destruct (loop fuel env 0 init_locals) as [r t]. exact H.
Qed.

Lemma capture_handler_balanced (e : Capture.capture_env) :
  frames_held (Capture.capture_handler e).2 [] = Some [] ∧
  blocks_held (Capture.capture_handler e).2 [] = Some [].
Proof.
  unfold Capture.capture_handler.
  destruct e as [[[a b fmt] |] [[ca cd] |] w]; cbn [Capture.cam Capture.conv format];
    try destruct (is_jpeg fmt); cbn; rewrite ?N.eqb_refl; done.
Qed.

(** C4: in the streaming handler and in the single-capture handler, on
    every path, each frame that [esp_camera_fb_get] hands out is given back
    by [esp_camera_fb_return] exactly once: no frame is given back that is
    not held at that moment, none is still held when the handler stops (or
    between two passes of the streaming loop), and the releases are as many
    as the successful acquires. *)
Theorem frame_released_exactly_once (fuel : nat) (set_type : esp_err_t)
    (env : nat → frame_env) (e : Capture.capture_env) :
  let ts := (stream_handler fuel set_type env).2 in
  let tc := (Capture.capture_handler e).2 in
  (frames_held ts [] = Some [] ∧ count is_acquired ts = count is_release ts) ∧
  (frames_held tc [] = Some [] ∧ count is_acquired tc = count is_release tc).
Proof.
  intros ts tc.
  destruct (stream_handler_balanced fuel set_type env) as [Hs _].
  destruct (capture_handler_balanced e) as [Hc _].
  fold ts in Hs. fold tc in Hc.
  pose proof (frames_held_count ts [] [] Hs) as Hsn.
  pose proof (frames_held_count tc [] [] Hc) as Hcn.
  cbn [length] in Hsn, Hcn. repeat split; [done | lia | done | lia].
Qed.

(** C7: in the streaming handler and in the single-capture handler, each
    block that a successful [frame2jpg] allocates is passed to [free]
    exactly once, whether its bytes were written out or a write failed:
    nothing is freed that is not an allocated block still held, no block is
    left when the handler stops, and the frees are as many as the
    successful conversions. *)
Theorem converted_buffer_freed_exactly_once (fuel : nat) (set_type : esp_err_t)
    (env : nat → frame_env) (e : Capture.capture_env) :
  let ts := (stream_handler fuel set_type env).2 in
  let tc := (Capture.capture_handler e).2 in
  (blocks_held ts [] = Some [] ∧ count is_allocated ts = count is_free ts) ∧
  (blocks_held tc [] = Some [] ∧ count is_allocated tc = count is_free tc).
Proof.
  intros ts tc.
  destruct (stream_handler_balanced fuel set_type env) as [_ Hs].
  destruct (capture_handler_balanced e) as [_ Hc].
  fold ts in Hs. fold tc in Hc.
  pose proof (blocks_held_count ts [] [] Hs) as Hsn.
  pose proof (blocks_held_count tc [] [] Hc) as Hcn.
  cbn [length] in Hsn, Hcn. repeat split; [done | lia | done | lia].
Qed.

End Ownership.

(** ** The streaming loop *)

Section StreamLoop.

Import Fmt Stream.

Lemma count_app (p : call → bool) (t1 t2 : trace) :
  count p (t1 ++ t2) = (count p t1 + count p t2)%nat.
Proof.
  induction t1 as [| c t1 IH]; [done |].
  cbn. destruct (p c); cbn; by rewrite IH.
Qed.

Lemma chunks_sent_app (t1 t2 : trace) :
  chunks_sent (t1 ++ t2) = chunks_sent t1 ++ chunks_sent t2.
Proof.
  induction t1 as [| c t1 IH]; [done |].
  destruct c; cbn; try apply IH.
  destruct (r =? ESP_OK); cbn; by rewrite IH.
Qed.

Lemma after_failed_write_app (t1 t2 : trace) :
  count is_failed_write t1 = 0%nat →
  after_failed_write (t1 ++ t2) = after_failed_write t2.
Proof.
  induction t1 as [| c t1 IH]; [done |].
  cbn. destruct (is_failed_write c); [done | exact IH].
Qed.

Lemma part_header_chunk (n : N) :
  (n < 2 ^ 32)%N →
  take (N.to_nat (snprintf 64 _STREAM_PART n).2) (snprintf 64 _STREAM_PART n).1
    = part_header n ∧
  (length (part_header n) ≤ 56)%nat.
Proof.
  intros Hn. destruct (snprintf_STREAM_PART n Hn) as (Hlen & _ & Htake).
  assert (Hfmt : list_byte_of_string (format_u _STREAM_PART n) = part_header n).
  { rewrite format_STREAM_PART. unfold part_header, to_uint32.
    by rewrite (N.mod_small n (2 ^ 32) Hn). }
  rewrite Hfmt in Hlen, Htake. split; [exact Htake | lia].
Qed.

(** A pass from the head of the loop makes the calls of [pass_trace] and
    leaves [pass_res] in [res], whatever length the last frame had. *)
Lemma iteration_at_loop_head (e : frame_env) (s : locals) :
  at_loop_head s →
  (iteration e s).2 = pass_trace e ∧ res (iteration e s).1 = pass_res e ∧
  (pass_res e = ESP_OK → at_loop_head (iteration e s).1).
Proof.
  intros (Hfb & Hbuf & Hres). destruct s as [sfb sres slen sbuf].
  cbn in Hfb, Hbuf, Hres. subst. unfold at_loop_head.
  run_iteration e; try discriminate; try (repeat split; done);
    repeat split; try done; cbn; lia.
Qed.

(** While the passes succeed the loop keeps running. *)
Lemma loop_running (env : nat → frame_env) (fuel : nat) : ∀ (i : nat) (s : locals),
  at_loop_head s →
  (∀ j, (i ≤ j < i + fuel)%nat → pass_res (env j) = ESP_OK) →
  loop fuel env i s = (None, flat_map (λ j, pass_trace (env j)) (seq i fuel)).
Proof.
  induction fuel as [| fuel IH]; intros i s Hs Hok; [done |].
  cbn [loop seq flat_map].
  destruct (iteration_at_loop_head (env i) s Hs) as (Ht & Hr & Hnext).
  destruct (iteration (env i) s) as [s' t]. cbn [fst snd] in *.
  rewrite Hr, (Hok i) by lia. cbn [negb Z.eqb ESP_OK].
  rewrite (IH (S i) s'); [by rewrite Ht | apply Hnext, Hok; lia |].
  intros j Hj. apply Hok. lia.
Qed.

(** The first pass that leaves [res] with an error is the last. *)
Lemma loop_exits (env : nat → frame_env) (k : nat) : ∀ (i : nat) (s : locals) (fuel : nat),
  at_loop_head s →
  (∀ j, (i ≤ j < i + k)%nat → pass_res (env j) = ESP_OK) →
  pass_res (env (i + k)%nat) ≠ ESP_OK →
  (k < fuel)%nat →
  loop fuel env i s =
    (Some (pass_res (env (i + k)%nat)),
     flat_map (λ j, pass_trace (env j)) (seq i (S k))).
Proof.
  induction k as [| k IH]; intros i s fuel Hs Hok Hfail Hfuel;
    (destruct fuel as [| fuel]; [lia |]);
    cbn [loop];
    destruct (iteration_at_loop_head (env i) s Hs) as (Ht & Hr & Hnext);
    destruct (iteration (env i) s) as [s' t]; cbn [fst snd] in *.
  - rewrite Nat.add_0_r in *.
    assert (E : (res s' =? ESP_OK) = false) by (apply Z.eqb_neq; congruence).
    rewrite E. cbn [negb seq flat_map]. by rewrite Hr, Ht, app_nil_r.
  - rewrite Hr, (Hok i) by lia. cbn [negb Z.eqb ESP_OK].
    rewrite (IH (S i) s' fuel); [| apply Hnext, Hok; lia | | | lia].
    + replace (S i + k)%nat with (i + S k)%nat by lia.
      rewrite Ht. reflexivity.
    + intros j Hj. apply Hok. lia.
    + by replace (S i + k)%nat with (i + S k)%nat by lia.
Qed.

(** The loop is only left with an error in [res]. *)
Lemma loop_never_returns_ok (env : nat → frame_env) (fuel : nat) : ∀ i s r,
  (loop fuel env i s).1 = Some r → r ≠ ESP_OK.
Proof.
  induction fuel as [| fuel IH]; intros i s r; [done |].
  cbn [loop]. destruct (iteration (env i) s) as [s' t].
  destruct (res s' =? ESP_OK) eqn:E; cbn [negb].
  - specialize (IH (S i) s' r).
    destruct (loop fuel env (S i) s') as [r' t']. exact IH.
  - cbn. intros [= <-]. by apply Z.eqb_neq.
Qed.

Lemma cycle_ok_pass (e : frame_env) :
  cycle_ok e = true → pass_res e = ESP_OK ∧ complete_pass (pass_trace e).
Proof.
  unfold cycle_ok, delivers, writes_ok, complete_pass.
  run_iteration e; cbn [andb orb negb]; try discriminate; intros _;
    finish_pass.
Qed.

Lemma write_fails_pass (e : frame_env) :
  write_fails e = true →
  pass_res e ≠ ESP_OK ∧
  count is_acquire (pass_trace e) = 1%nat ∧
  ∃ post, after_failed_write (pass_trace e) = Some post ∧
          count is_acquire post = 0%nat.
Proof.
  unfold write_fails, delivers, writes_ok.
  run_iteration e; cbn [andb orb negb]; try discriminate; intros _;
    (split; [by apply Z.eqb_neq |]); (split; [reflexivity |]);
    cbn; rewrite_eqb; cbn; eexists; (split; [reflexivity |]);
    reflexivity.
Qed.

Lemma bytes_at_all (p : option jpg_ptr) :
  bytes_at p (N.of_nat (length (ptr_bytes p))) = ptr_bytes p.
Proof. unfold bytes_at. rewrite Nat2N.id. by apply take_ge. Qed.

(** The chunks of a complete pass: header, body, boundary. *)
Lemma pass_chunks (e : frame_env) :
  cycle_ok e = true →
  (N.of_nat (length (jpeg_body e)) < 2 ^ 32)%N →
  chunks_sent (pass_trace e) =
    [ part_header (N.of_nat (length (jpeg_body e)));
      jpeg_body e; boundary_line ].
Proof.
  intros Hok Hlen.
  destruct (part_header_chunk (N.of_nat (length (jpeg_body e))) Hlen) as [Hh _].
  revert Hok Hh. unfold cycle_ok, delivers, writes_ok, jpeg_body, len.
  unfold pass_trace, init_locals, iteration, acquire, send, release.
  destruct e as [[[a b fmt] |] [[ca cd] |] w1 w2 w3];
    cbn [cam conv wr_header wr_body wr_boundary format buf];
    try discriminate;
    destruct (is_jpeg fmt) eqn:Efmt;
    cbn [andb orb negb fb res _jpg_buf _jpg_buf_len]; try discriminate;
    intros Hok Hh;
    apply andb_prop in Hok as [Hok H3]; apply andb_prop in Hok as [H1 H2];
    change (ESP_OK =? ESP_OK) with true; cbv beta iota zeta;
    destruct (snprintf 64 _STREAM_PART _) as [pb hl]; cbn [fst snd] in Hh;
    repeat (progress (rewrite ?H1, ?H2, ?H3; cbv beta iota zeta));
    cbn [fst snd fb res _jpg_buf _jpg_buf_len app chunks_sent];
    rewrite ?H1, ?H2, ?H3, Hh; repeat f_equal.
  all: try (apply (bytes_at_all (Some (FbBuf {| fb_addr := a; buf := b; format := fmt |})))).
  all: try (apply (bytes_at_all (Some (Heap ca cd)))).
Qed.

Lemma seq_flat_map_count (f : nat → trace) (p : call → bool) (c : nat) :
  ∀ k i, (∀ j, (i ≤ j < i + k)%nat → count p (f j) = c) →
  count p (flat_map f (seq i k)) = (k * c)%nat.
Proof.
  induction k as [| k IH]; intros i H; [done |].
  cbn [seq flat_map]. rewrite count_app. rewrite (H i) by lia.
  rewrite (IH (S i)); [lia |].
  intros j Hj. apply H. lia.
Qed.

(** C6: when the first [n] passes are successful acquire-and-send cycles
    and pass [n] has a failing chunked write, the loop is still running
    after [n] passes or fewer and has stopped after pass [n]: it has run
    [n] complete passes and the failing one, [S n] acquires in all, and no
    acquire follows the failing write.  And the loop never stops while every
    operation succeeds: with only successful cycles it runs on whatever the
    number of passes, and whenever the handler returns, it returns an error. *)
Theorem stream_loop_stops_at_first_failed_write (env : nat → frame_env) (n : nat) :
  (∀ i, (i < n)%nat → cycle_ok (env i) = true) →
  write_fails (env n) = true →
  (∀ fuel, (fuel ≤ n)%nat → (stream_handler fuel ESP_OK env).1 = None) ∧
  (∀ fuel, (n < fuel)%nat →
     ∃ r post,
       let t := (stream_handler fuel ESP_OK env).2 in
       (stream_handler fuel ESP_OK env).1 = Some r ∧ r ≠ ESP_OK ∧
       t = httpd_resp_set_type _STREAM_CONTENT_TYPE
             :: flat_map (λ i, pass_trace (env i)) (seq 0 n)
             ++ pass_trace (env n) ∧
       Forall (λ i, complete_pass (pass_trace (env i))) (seq 0 n) ∧
       count is_acquire t = S n ∧
       after_failed_write t = Some post ∧ count is_acquire post = 0%nat) ∧
  (∀ env', (∀ i, cycle_ok (env' i) = true) →
           ∀ fuel, (stream_handler fuel ESP_OK env').1 = None) ∧
  (∀ fuel set_type env' r,
     (stream_handler fuel set_type env').1 = Some r → r ≠ ESP_OK).
Proof.
  intros Hok Hfail.
  assert (H0 : at_loop_head init_locals) by done.
  destruct (write_fails_pass (env n) Hfail) as (Hres & Hacq & post & Hpost & Hnone).
  split; [| split; [| split]].
  - intros fuel Hfuel. unfold stream_handler. cbn [negb Z.eqb ESP_OK].
    rewrite (loop_running env fuel 0%nat init_locals H0); [done |].
    intros j Hj. apply cycle_ok_pass, Hok. lia.
  - intros fuel Hfuel. exists (pass_res (env n)), post.
    unfold stream_handler. cbn [negb Z.eqb ESP_OK].
    rewrite (loop_exits env n 0%nat init_locals fuel H0); cbn [Nat.add];
      [| intros j Hj; apply cycle_ok_pass, Hok; lia | done | done].
    rewrite seq_S, flat_map_app. cbn [Nat.add flat_map fst snd].
    rewrite app_nil_r.
    assert (Hall : ∀ j, (0 ≤ j < 0 + n)%nat → complete_pass (pass_trace (env j))).
    { intros j Hj. apply cycle_ok_pass, Hok. lia. }
    split; [done |]. split; [done |]. split; [done |].
    split; [| split; [| split]].
    + apply Forall_forall. intros j Hj. apply Hall.
      apply elem_of_seq in Hj. lia.
    + cbn [count is_acquire]. rewrite count_app, Hacq.
      rewrite (seq_flat_map_count _ is_acquire 1 n 0%nat); [lia |].
      intros j Hj. by destruct (Hall j Hj) as (? & _).
    + cbn [after_failed_write is_failed_write].
      rewrite after_failed_write_app; [exact Hpost |].
      rewrite (seq_flat_map_count _ is_failed_write 0 n 0%nat); [lia |].
      intros j Hj. by destruct (Hall j Hj) as (_ & ? & _).
    + exact Hnone.
  - intros env' Hall fuel. unfold stream_handler. cbn [negb Z.eqb ESP_OK].
    rewrite (loop_running env' fuel 0%nat init_locals H0); [done |].
    intros j _. apply cycle_ok_pass, Hall.
  - intros fuel set_type env' r. unfold stream_handler.
    destruct (set_type =? ESP_OK) eqn:E; cbn [negb].
    + pose proof (loop_never_returns_ok env' fuel 0%nat init_locals r) as H.
      destruct (loop fuel env' 0 init_locals) as [r' t']. exact H.
    + cbn. intros [= <-]. by apply Z.eqb_neq.
Qed.

Lemma stream_loop_stops_at_first_failed_write_witness :
  (∀ i, (i < 2)%nat → cycle_ok (Examples.two_then_disconnect i) = true) ∧
  write_fails (Examples.two_then_disconnect 2) = true ∧
  (stream_handler 2 ESP_OK Examples.two_then_disconnect).1 = None ∧
  (stream_handler 3 ESP_OK Examples.two_then_disconnect).1 = Some ESP_FAIL ∧
  count is_acquire (stream_handler 3 ESP_OK Examples.two_then_disconnect).2
    = 3%nat ∧
  (∀ fuel, (stream_handler fuel ESP_OK Examples.endless).1 = None).
Proof.
  assert (Hok : ∀ i, (i < 2)%nat →
                     cycle_ok (Examples.two_then_disconnect i) = true).
  { intros [| [| i]] Hi; [reflexivity | reflexivity | lia]. }
  assert (Hfail : write_fails (Examples.two_then_disconnect 2) = true)
    by reflexivity.
  destruct (stream_loop_stops_at_first_failed_write
              Examples.two_then_disconnect 2 Hok Hfail)
    as (Hrun & Hstop & Hend & _).
  split; [exact Hok |]. split; [exact Hfail |].
  split; [apply Hrun; lia |].
  split; [reflexivity |]. split; [reflexivity |].
  apply Hend. intros i. reflexivity.
Defined.

(** C3, as the code has it: while every pass is a successful
    acquire-and-send cycle, the chunks written are, frame after frame and in
    this order, the header [Content-Type: image/jpeg\r\nContent-Length: <n>\r\n\r\n]
    with [n] the byte length of the frame's JPEG body, the [n] bytes of the
    body, and then the boundary line [\r\n--<boundary>\r\n]. *)
Theorem stream_parts_header_body_boundary (env : nat → frame_env) (k : nat) :
  (∀ j, (j < k)%nat →
        cycle_ok (env j) = true ∧
        (N.of_nat (length (jpeg_body (env j))) < 2 ^ 32)%N) →
  chunks_sent (stream_handler k ESP_OK env).2 =
    flat_map (λ j, [ part_header (N.of_nat (length (jpeg_body (env j))));
                     jpeg_body (env j);
                     boundary_line ])
      (seq 0 k).
Proof.
  intros Hok.
  assert (H0 : at_loop_head init_locals) by done.
  unfold stream_handler. cbn [negb Z.eqb ESP_OK].
  rewrite (loop_running env k 0%nat init_locals H0);
    [| intros j Hj; apply cycle_ok_pass, Hok; lia ].
  cbn [snd chunks_sent].
  assert (Hgen : ∀ i, (∀ j, (i ≤ j < i + k)%nat →
                        cycle_ok (env j) = true ∧
                        (N.of_nat (length (jpeg_body (env j))) < 2 ^ 32)%N) →
            chunks_sent (flat_map (λ j, pass_trace (env j)) (seq i k)) =
            flat_map (λ j, [ part_header (N.of_nat (length (jpeg_body (env j))));
                             jpeg_body (env j); boundary_line ]) (seq i k)).
  { clear Hok. induction k as [| k IH]; intros i Hok; [done |].
    cbn [seq flat_map]. rewrite chunks_sent_app.
    destruct (Hok i ltac:(lia)) as [Hc Hl].
    rewrite (pass_chunks (env i) Hc Hl), IH; [done |].
    intros j Hj. apply Hok. lia. }
  apply Hgen. intros j Hj. apply Hok. lia.
Qed.

Lemma stream_parts_header_body_boundary_witness :
  (∀ j, (j < 2)%nat →
        cycle_ok (Examples.two_then_disconnect j) = true ∧
        (N.of_nat (length (jpeg_body (Examples.two_then_disconnect j))) < 2 ^ 32)%N) ∧
  chunks_sent (stream_handler 2 ESP_OK Examples.two_then_disconnect).2 =
    [ part_header 4; buf Examples.jpeg_frame; boundary_line;
      part_header 3; [xff; xd8; xd9]%byte; boundary_line ].
Proof.
  assert (Hok : ∀ j, (j < 2)%nat →
        cycle_ok (Examples.two_then_disconnect j) = true ∧
        (N.of_nat (length (jpeg_body (Examples.two_then_disconnect j))) < 2 ^ 32)%N).
  { intros [| [| j]] Hj; [by split | by split | lia]. }
  split; [exact Hok |].
  rewrite (stream_parts_header_body_boundary Examples.two_then_disconnect 2 Hok).
  reflexivity.
Defined.

(** C3 as stated fails: the chunks written for the first frame do not
    start with the boundary line; they are header, body, boundary and not
    boundary, header, body. *)
Lemma stream_part_not_boundary_first :
  let t := (stream_handler 2 ESP_OK Examples.one_then_no_frame).2 in
  (stream_handler 2 ESP_OK Examples.one_then_no_frame).1 = Some ESP_FAIL ∧
  chunks_sent t = [ part_header 4; buf Examples.jpeg_frame; boundary_line ] ∧
  chunks_sent t ≠ [ boundary_line; part_header 4; buf Examples.jpeg_frame ].
Proof.
  split; [reflexivity |]. split; [reflexivity |].
  vm_compute. discriminate.
Qed.

End StreamLoop.

(** ** Failures in the single-capture handler *)

Section CaptureFailures.

Import Capture.

(** When the camera returns no buffer the handler sends the 500 response
    and then returns [ESP_FAIL]. *)
Lemma capture_failure_sends_500 (c : option (N * list byte)) (w : esp_err_t) :
  capture_handler {| cam := None; conv := c; wr := w |} =
    (ESP_FAIL,
     [ esp_camera_fb_get None;
       Serial_println "Camera capture failed";
       httpd_resp_send_500 ]).
Proof. reflexivity. Qed.

(** When the conversion fails the handler gives the frame back and returns
    [ESP_FAIL]; it sends nothing. *)
Lemma conversion_failure_sends_nothing (f : camera_fb_t) (w : esp_err_t) :
  is_jpeg (format f) = false →
  capture_handler {| cam := Some f; conv := None; wr := w |} =
    (ESP_FAIL,
     [ esp_camera_fb_get (Some f);
       httpd_resp_set_type "image/jpeg";
       httpd_resp_set_hdr "Content-Disposition" "inline; filename=capture.jpg";
       frame2jpg f 80 None;
       esp_camera_fb_return f ]).
Proof.
  intros Hfmt. unfold capture_handler. cbn [cam conv wr]. by rewrite Hfmt.
Qed.

(** C2: a capture failure is answered with the 500 response before the
    handler returns [ESP_FAIL]; a conversion failure is not: for a raw frame
    that [frame2jpg] cannot convert the handler returns [ESP_FAIL] without
    a call that sends a response. *)
Theorem capture_conversion_failure_without_500 :
  (capture_handler Examples.capture_fails).1 = ESP_FAIL ∧
  last (capture_handler Examples.capture_fails).2 = Some httpd_resp_send_500 ∧
  (capture_handler Examples.conversion_fails).1 = ESP_FAIL ∧
  count is_send_500 (capture_handler Examples.conversion_fails).2 = 0%nat ∧
  count is_response (capture_handler Examples.conversion_fails).2 = 0%nat.
Proof. repeat split. Qed.

End CaptureFailures.

(** ** Sequences of control requests *)

Section ControlFacts.

Import Motor Control.

Lemma session_app (g : globals) (a b : list (command * esp_err_t)) :
  session g (a ++ b) = session g a ++ session g b.
Proof. unfold session. apply flat_map_app. Qed.

Lemma session_single (g : globals) (c : command) (r : esp_err_t) :
  session g [(c, r)] = (handle g c r).2.
Proof. unfold session. cbn. apply app_nil_r. Qed.

Lemma ledc_writes_app (t1 t2 : trace) :
  ledc_writes (t1 ++ t2) = ledc_writes t1 ++ ledc_writes t2.
Proof.
  induction t1 as [| c t1 IH]; [done |]. destruct c; cbn; by rewrite ?IH.
Qed.

Lemma digital_writes_app (t1 t2 : trace) :
  digital_writes (t1 ++ t2) = digital_writes t1 ++ digital_writes t2.
Proof.
  induction t1 as [| c t1 IH]; [done |]. destruct c; cbn; by rewrite ?IH.
Qed.


(** A motor command overwrites the four channels: what they hold
    afterwards does not depend on what they held. *)
Lemma motor_command_overwrites (g : globals) (c : command) (r r' : esp_err_t)
    (m m' : gmap Z Z) (p : Z) :
  is_motor c = true → p ∈ channels →
  pwm_run (handle g c r).2 m !! p = pwm_run (handle g c r').2 m' !! p.
Proof.
  intros Hc Hp. unfold channels, LEFT_M0, LEFT_M1, RIGHT_M0, RIGHT_M1 in Hp.
  repeat (apply elem_of_cons in Hp as [-> | Hp]);
    [ | | | | by apply elem_of_nil in Hp ];
    destruct c; try discriminate; cbn;
    unfold LEFT_M0, LEFT_M1, RIGHT_M0, RIGHT_M1; by simplify_map_eq.
Qed.

Lemma light_command_keeps_pwm (g : globals) (c : command) (r : esp_err_t)
    (m : gmap Z Z) :
  is_motor c = false → pwm_run (handle g c r).2 m = m.
Proof. by destruct c. Qed.


Lemma last_filter_snoc {A} (P : A → Prop) `{∀ x, Decision (P x)}
    (l : list A) (x : A) :
  last (filter P (l ++ [x])) = if decide (P x) then Some x else last (filter P l).
Proof.
  rewrite filter_app, filter_cons, filter_nil.
  destruct (decide (P x)); [apply last_snoc | by rewrite app_nil_r].
Qed.

(** X1: after any sequence of control requests, the duty cycles of the
    four motor channels are those that the last motor command of the
    sequence writes, whatever came before it and whatever the sends
    returned; light commands in between change nothing; without a motor
    command the channels hold what they held. *)
Theorem last_motor_command_wins (g : globals)
    (reqs : list (command * esp_err_t)) (m : gmap Z Z) :
  Forall (λ p, pwm_run (session g reqs) m !! p =
               match last_motor reqs with
               | Some c => pwm_run (handle g c ESP_OK).2 ∅ !! p
               | None => m !! p
               end) channels.
Proof.
  apply Forall_forall. intros p Hp.
  induction reqs as [| [c r] reqs IH] using rev_ind; [done |].
  rewrite session_app, pwm_run_app. unfold last_motor in *.
  rewrite fmap_app. change ([(c, r)].*1) with [c]. rewrite last_filter_snoc.
  rewrite session_single.
  destruct (decide (is_motor c = true)) as [Hc | Hc].
  - by apply motor_command_overwrites.
  - apply not_true_is_false in Hc.
    by rewrite light_command_keeps_pwm.
Qed.


(** X3: a sequence of control requests writes duty cycles to the four
    motor channels only, and levels to the light pin only. *)
Theorem session_writes_only_its_pins (g : globals)
    (reqs : list (command * esp_err_t)) :
  Forall (λ w, w.1 ∈ channels) (ledc_writes (session g reqs)) ∧
  Forall (λ w, w.1 = to_uint8 (gpLed g)) (digital_writes (session g reqs)).
Proof.
  induction reqs as [| [c r] reqs [IH1 IH2]]; [by split |].
  change (session g ((c, r) :: reqs))
    with ((handle g c r).2 ++ session g reqs).
  rewrite ledc_writes_app, digital_writes_app. split; apply Forall_app; split;
    try done; destruct c; cbn; repeat constructor;
    cbn; unfold channels; set_solver.
Qed.

(** X2: for a speed that an [int] holds, a direction writes the same duty
    cycles as [robot_stop] exactly when the speed is 0. *)
Theorem direction_is_stop_iff_speed_zero (speed : Z) (d : direction) :
  - 2 ^ 31 ≤ speed < 2 ^ 31 →
  ledc_writes (robot d speed) = ledc_writes robot_stop ↔ speed = 0.
Proof.
  intros Hr.
  assert (Hz : to_uint32 speed = 0 ↔ speed = 0).
  { unfold to_uint32. split; [| by intros ->].
    intros H. apply Z.mod_divide in H; [| lia].
    destruct H as [k Hk]. lia. }
  split.
  - intros H. apply Hz. destruct d; cbn in H; congruence.
  - intros ->. by destruct d.
Qed.

Lemma direction_is_stop_iff_speed_zero_witness :
  - 2 ^ 31 ≤ 0 < 2 ^ 31 ∧
  (ledc_writes (robot Fwd 0) = ledc_writes robot_stop ↔ 0 = 0).
Proof.
  split; [lia |]. apply (direction_is_stop_iff_speed_zero 0 Fwd). lia.
Defined.

Lemma writes_fit_app (t1 t2 : trace) : ∀ att,
  writes_fit (t1 ++ t2) att =
    writes_fit t1 att && writes_fit t2 (attached_after t1 att).
Proof.
  induction t1 as [| c t1 IH]; intros att; [done |].
  destruct c; cbn; try apply IH.
  destruct (att !! pin); [| done]. rewrite IH.
  by rewrite <- !andb_assoc.
Qed.

Lemma attached_after_writes (t : trace) (att : gmap Z Z) :
  (∀ c, c ∈ t → attach_step att c = att) → attached_after t att = att.
Proof.
  induction t as [| c t IH]; intros H; [done |].
  cbn. rewrite (H c) by (by left). apply IH. intros c' Hc'. apply H. by right.
Qed.






(** X17: the Motor Speed is not clamped: for a speed that an [int] holds
    and that lies outside [0,255], every direction writes a duty cycle of
    256 or more, which does not fit the 8-bit resolution that
    [robot_setup] gives the channels. *)
Theorem speed_is_not_clamped (speed : Z) (d : direction) :
  - 2 ^ 31 ≤ speed < 2 ^ 31 → speed < 0 ∨ 255 < speed →
  Exists (λ w, 256 ≤ w.2) (ledc_writes (robot d speed)) ∧
  writes_fit (robot_setup ++ robot d speed) ∅ = false.
Proof.
  intros Hr Hout.
  assert (Hbig : 256 ≤ to_uint32 speed).
  { unfold to_uint32. destruct (Z_lt_le_dec speed 0) as [Hn | Hp].
    - rewrite <- (Z.mod_add speed 1 (2 ^ 32)) by lia.
      rewrite Z.mod_small; lia.
    - rewrite Z.mod_small; lia. }
  assert (Hfit : (to_uint32 speed <? 2 ^ 8) = false) by (apply Z.ltb_ge; lia).
  split.
  - destruct d; cbn;
      first [ by apply Exists_cons_hd
            | by apply Exists_cons_tl, Exists_cons_hd ].
  - rewrite writes_fit_app.
    assert (H1 : writes_fit robot_setup ∅ = true) by (by vm_compute).
    rewrite H1. cbn [andb].
    assert (Hatt : Forall (λ p, attached_after robot_setup ∅ !! p = Some 8)
                     channels).
    { unfold channels, LEFT_M0, LEFT_M1, RIGHT_M0, RIGHT_M1.
      repeat constructor; by vm_compute. }
    unfold channels in Hatt.
    apply Forall_cons in Hatt as [H13 Hatt]. apply Forall_cons in Hatt as [H12 Hatt].
    apply Forall_cons in Hatt as [H14 Hatt]. apply Forall_cons in Hatt as [H15 _].
    revert H13 H12 H14 H15. generalize (attached_after robot_setup ∅).
    intros att H13 H12 H14 H15.
    destruct d; cbn; rewrite ?H13, ?H12, ?H14, ?H15, ?Hfit;
      cbn; rewrite ?andb_false_r; reflexivity.
Qed.

Lemma speed_is_not_clamped_witness :
  - 2 ^ 31 ≤ -1 < 2 ^ 31 ∧ (-1 < 0 ∨ 255 < -1) ∧
  ledc_writes (robot Fwd (-1)) =
    [(LEFT_M0, 4294967295); (LEFT_M1, 0); (RIGHT_M0, 0); (RIGHT_M1, 4294967295)] ∧
  writes_fit (robot_setup ++ robot Fwd (-1)) ∅ = false.
Proof.
  split; [lia |]. split; [left; lia |]. split; [reflexivity |].
  apply (speed_is_not_clamped (-1) Fwd); [lia | left; lia].
Defined.

End ControlFacts.

(** ** Server wiring *)

Section ServerFacts.

Import Server.

(** The servers that run after [startCameraServer]: each one runs exactly
    when its own [httpd_start] succeeded, with the entries that fit its
    table. *)
Lemma servers_after_start (default : httpd_config_t) (r80 r81 : esp_err_t) :
  servers_after (startCameraServer default r80 r81) =
    {| camera :=
         if (r80 =? ESP_OK)%Z then
           Some {| config_of :=
                     {| server_port := 80; ctrl_port := ctrl_port default;
                        max_uri_handlers := max_uri_handlers default |};
                   table_of := take (max_uri_handlers default) control_uris |}
         else None;
       stream :=
         if (r81 =? ESP_OK)%Z then
           Some {| config_of :=
                     {| server_port := 81;
                        ctrl_port := to_uint16 (ctrl_port default + 1);
                        max_uri_handlers := max_uri_handlers default |};
                   table_of := take (max_uri_handlers default) [stream_uri] |}
         else None |}.
Proof.
  destruct default as [sp cp max]. unfold startCameraServer.
  cbn [ctrl_port max_uri_handlers server_port].
  destruct (r80 =? ESP_OK)%Z eqn:E80; destruct (r81 =? ESP_OK)%Z eqn:E81;
    unfold servers_after; cbn [app foldl server_step];
    rewrite ?E80, ?E81; cbn [foldl server_step get set camera stream];
    rewrite ?E80, ?E81;
    do 10 (try (destruct max as [| max]; [reflexivity |]));
    reflexivity.
Qed.

(** X8: when both servers start, the control server listens on port 80
    and the stream server on port 81, and their control ports differ, for
    every control port the default configuration can hold. *)
Theorem servers_do_not_share_ports (default : httpd_config_t) :
  0 ≤ ctrl_port default < 2 ^ 16 →
  ∃ c s,
    camera (servers_after (startCameraServer default ESP_OK ESP_OK)) = Some c ∧
    stream (servers_after (startCameraServer default ESP_OK ESP_OK)) = Some s ∧
    server_port (config_of c) = 80 ∧ server_port (config_of s) = 81 ∧
    ctrl_port (config_of c) = ctrl_port default ∧
    0 ≤ ctrl_port (config_of s) < 2 ^ 16 ∧
    ctrl_port (config_of s) ≠ ctrl_port (config_of c).
Proof.
  intros Hc. rewrite servers_after_start. cbn [Z.eqb ESP_OK camera stream].
  do 2 eexists. split; [reflexivity |]. split; [reflexivity |].
  cbn [config_of server_port ctrl_port]. unfold to_uint16.
  repeat split; try apply Z.mod_pos_bound; try lia.
  destruct (Z.eq_dec (ctrl_port default) (2 ^ 16 - 1)) as [-> | Hne].
  - by vm_compute.
  - rewrite Z.mod_small; lia.
Qed.

Lemma servers_do_not_share_ports_witness :
  0 ≤ 65535 < 2 ^ 16 ∧
  ∃ c s,
    let d := {| server_port := 80; ctrl_port := 65535; max_uri_handlers := 8 |} in
    camera (servers_after (startCameraServer d ESP_OK ESP_OK)) = Some c ∧
    stream (servers_after (startCameraServer d ESP_OK ESP_OK)) = Some s ∧
    ctrl_port (config_of c) = 65535 ∧ ctrl_port (config_of s) = 0.
Proof.
  split; [lia |].
  destruct (servers_do_not_share_ports
              {| server_port := 80; ctrl_port := 65535; max_uri_handlers := 8 |}
              ltac:(cbn; lia)) as (c & s & Hc & Hs & _).
  exists c, s. cbv zeta. rewrite Hc, Hs.
  split; [reflexivity |]. split; [reflexivity |].
  vm_compute in Hc, Hs. injection Hc as <-. injection Hs as <-.
  split; reflexivity.
Defined.

(** X7: each server is set up on its own: the stream server runs exactly
    when its [httpd_start] succeeds, whether or not the control server
    started, and the other way round; nothing is registered on a handle
    whose start failed, and [/stream] is registered on the stream handle
    only. *)
Theorem servers_start_independently (default : httpd_config_t)
    (r80 r81 : esp_err_t) :
  let t := startCameraServer default r80 r81 in
  (is_Some (camera (servers_after t)) ↔ r80 = ESP_OK) ∧
  (is_Some (stream (servers_after t)) ↔ r81 = ESP_OK) ∧
  registered_on camera_httpd t
    = (if (r80 =? ESP_OK)%Z then control_uris else []) ∧
  registered_on stream_httpd t
    = (if (r81 =? ESP_OK)%Z then [stream_uri] else []).
Proof.
  intros t. unfold t. rewrite servers_after_start. cbn [camera stream].
  split; [| split; [| split]].
  - destruct (Z.eqb_spec r80 ESP_OK) as [He | He]; split; intros H;
      first [ done | by eexists | by destruct H ].
  - destruct (Z.eqb_spec r81 ESP_OK) as [He | He]; split; intros H;
      first [ done | by eexists | by destruct H ].
  - unfold startCameraServer.
    destruct (r80 =? ESP_OK)%Z; destruct (r81 =? ESP_OK)%Z; reflexivity.
  - unfold startCameraServer.
    destruct (r80 =? ESP_OK)%Z; destruct (r81 =? ESP_OK)%Z; reflexivity.
Qed.

(** X6: on the control server, with room for at least eight entries, a
    GET of ["/" ++ x] for each command [x] of the page reaches the handler
    of that command and a GET of ["/"] reaches [index_handler];
    [/capture], registered ninth, is served exactly when the table has room
    for nine entries; [/stream] is not served there, and neither is any
    other method than GET. *)
Theorem control_routes (default : httpd_config_t) (r81 : esp_err_t) :
  (8 ≤ max_uri_handlers default)%nat →
  ∃ c,
    camera (servers_after (startCameraServer default ESP_OK r81)) = Some c ∧
    Forall (λ x, find_handler (table_of c) ("/" ++ Control.name x)%string HTTP_GET
                 = Some (handler_of x)) Control.commands ∧
    find_handler (table_of c) "/" HTTP_GET = Some index_handler ∧
    (find_handler (table_of c) "/capture" HTTP_GET = Some capture_handler
     ↔ (9 ≤ max_uri_handlers default)%nat) ∧
    find_handler (table_of c) "/stream" HTTP_GET = None ∧
    (∀ path m, m ≠ HTTP_GET → find_handler (table_of c) path m = None).
Proof.
  intros Hmax. rewrite servers_after_start. cbn [Z.eqb ESP_OK camera].
  eexists. split; [reflexivity |]. cbn [table_of].
  destruct (decide (max_uri_handlers default = 8%nat)) as [-> | Hne];
    [| rewrite (take_ge control_uris) by (cbn; lia) ].
  - (* eight entries *)
    split; [repeat constructor |]. split; [reflexivity |].
    split; [split; [by vm_compute | lia] |]. split; [reflexivity |].
    intros path m Hm. unfold find_handler, control_uris. cbn [take List.find].
    unfold matches. cbn [method index_uri go_uri back_uri stop_uri left_uri
                         right_uri ledon_uri ledoff_uri].
    destruct m; try done; by rewrite !andb_false_r.
  - (* nine or more *)
    split; [repeat constructor |]. split; [reflexivity |].
    split; [split; [lia | reflexivity] |]. split; [reflexivity |].
    intros path m Hm. unfold find_handler, control_uris. cbn [take List.find].
    unfold matches. cbn [method index_uri go_uri back_uri stop_uri left_uri
                         right_uri ledon_uri ledoff_uri capture_uri].
    destruct m; try done; by rewrite !andb_false_r.
Qed.

Lemma control_routes_witness :
  let d := {| server_port := 80; ctrl_port := 32768; max_uri_handlers := 8 |} in
  (8 ≤ max_uri_handlers d)%nat ∧
  ∃ c,
    camera (servers_after (startCameraServer d ESP_OK ESP_OK)) = Some c ∧
    find_handler (table_of c) "/go" HTTP_GET = Some go_handler ∧
    find_handler (table_of c) "/capture" HTTP_GET = None.
Proof.
  intros d. split; [cbn; lia |].
  destruct (control_routes d ESP_OK ltac:(cbn; lia)) as (c & Hc & _).
  exists c. split; [exact Hc |].
  vm_compute in Hc. injection Hc as <-. split; reflexivity.
Defined.

End ServerFacts.

(** ** The control page *)

Section IndexFacts.

Import Control.

Lemma append_assoc_r (a b c : string) :
  ((a ++ b) ++ c = a ++ (b ++ c))%string.
Proof.
  induction a as [| x a IH]; [reflexivity |].
  change (String x ((a ++ b) ++ c) = String x (a ++ (b ++ c)))%string.
  by rewrite IH.
Qed.

Lemma strip_prefix_sound (p : string) : ∀ s rest,
  strip_prefix p s = Some rest → s = (p ++ rest)%string.
Proof.
  induction p as [| c p IH]; intros s rest H; cbn in H.
  - by inversion H.
  - destruct s as [| d s]; [done |].
    destruct (Ascii.eqb_spec c d) as [-> | Hne]; [| done].
    change (String d s = String d (p ++ rest)%string). f_equal. by apply IH.
Qed.

Lemma find_sub_sound (needle : string) : ∀ s a b,
  find_sub needle s = Some (a, b) → s = (a ++ needle ++ b)%string.
Proof.
  induction s as [| c s IH]; intros a b H.
  - cbn in H. destruct (strip_prefix needle "") eqn:E; [| done].
    inversion H; subst. by apply strip_prefix_sound in E.
  - cbn [find_sub] in H.
    destruct (strip_prefix needle (String c s)) eqn:E.
    + inversion H; subst. by apply strip_prefix_sound in E.
    + destruct (find_sub needle s) as [[a' b'] |] eqn:E'; [| done].
      inversion H; subst.
      change (String c s = String c (a' ++ needle ++ b)%string).
      f_equal. by apply IH.
Qed.

(** The page is a fixed text around the address; the text after the
    address starts with the port and path of the stream and holds the
    [send] call of every command. *)
Lemma index_page_split :
  ∃ head tail,
    (∀ w, index_page w = (head ++ "http://" ++ w ++ tail)%string) ∧
    is_Some (strip_prefix ":81/stream" tail) ∧
    Forall (λ x, is_Some (find_sub ("send('" ++ name x ++ "')")%string tail))
      commands.
Proof.
  let r := eval vm_compute in (find_sub "http://" (index_page "")) in
  match r with
  | Some (?h, ?t) => exists h, t
  end.
  split; [| split].
  - intros w. unfold index_page. cbv zeta.
    rewrite !append_assoc_r. reflexivity.
  - vm_compute. by eexists.
  - unfold commands. repeat constructor; vm_compute; by eexists.
Qed.

(** X9: for every address, the page that [index_handler] sends embeds
    the stream as [http://<address>:81/stream], the port and path on
    which [startCameraServer] registers the stream handler, and holds a
    [send('x')] call for each of the seven commands; the handler sends the
    whole page in one response and returns the result of that send. *)
Theorem index_page_links (w : string) (r : esp_err_t) :
  occurs ("http://" ++ w ++ ":81" ++ Server.uri Server.stream_uri)%string
    (index_page w) ∧
  Forall (λ x, occurs ("send('" ++ name x ++ "')")%string (index_page w))
    commands ∧
  bodies_sent (index_handler w r).2 = [list_byte_of_string (index_page w)] ∧
  (index_handler w r).1 = r.
Proof.
  destruct index_page_split as (head & tail & Hpage & [rest Hrest] & Hcmds).
  apply strip_prefix_sound in Hrest.
  split; [| split; [| split]].
  - exists head, rest. rewrite Hpage, Hrest.
    change (":81" ++ Server.uri Server.stream_uri)%string with ":81/stream"%string.
    by rewrite !append_assoc_r.
  - eapply Forall_impl; [exact Hcmds |]. cbv beta.
    intros x [[a b] Hab]. apply find_sub_sound in Hab.
    exists (head ++ "http://" ++ w ++ a)%string, b.
    rewrite Hpage, Hab. by rewrite !append_assoc_r.
  - unfold index_handler. cbn [snd bodies_sent]. f_equal.
    apply take_ge. by rewrite length_list_byte_of_string.
  - reflexivity.
Qed.

End IndexFacts.

(** ** More on the streaming loop *)

Section StreamRuns.

Import Fmt Stream.

Lemma after_first_app (p : call → bool) (t1 t2 : trace) :
  count p t1 = 0%nat → after_first p (t1 ++ t2) = after_first p t2.
Proof.
  induction t1 as [| c t1 IH]; [done |].
  cbn. destruct (p c); [done | exact IH].
Qed.

Lemma count_after_app (p q : call → bool) (t1 t2 : trace) :
  count p t1 = 0%nat → count_after p q (t1 ++ t2) = count_after p q t2.
Proof. intros H. unfold count_after. by rewrite after_first_app. Qed.

Lemma count_after_cons (p q : call → bool) (c : call) (t : trace) :
  p c = false → count_after p q (c :: t) = count_after p q t.
Proof. intros H. unfold count_after. cbn. by rewrite H. Qed.

Lemma count_after_none (p q : call → bool) (t : trace) :
  count p t = 0%nat → count_after p q t = 0%nat.
Proof.
  unfold count_after. induction t as [| c t IH]; [done |].
  cbn. destruct (p c); [done | exact IH].
Qed.

(** A pass that is not a successful cycle leaves [pass_error] in [res]. *)
Lemma failing_pass_error (e : frame_env) :
  cycle_ok e = false → pass_res e = pass_error e ∧ pass_error e ≠ ESP_OK.
Proof.
  unfold cycle_ok, pass_error, delivers, writes_ok.
  run_iteration e; cbn [andb orb negb first_error]; try discriminate;
    rewrite_eqb; intros _; split; first [ done | by apply Z.eqb_neq ].
Qed.

(** A pass in which no JPEG body is obtained writes nothing and frees
    nothing. *)
Lemma no_body_no_write (e : frame_env) :
  delivers e = false →
  count is_chunk (pass_trace e) = 0%nat ∧ count is_free (pass_trace e) = 0%nat.
Proof.
  unfold delivers.
  run_iteration e; cbn [andb orb negb]; try discriminate; intros _; by split.
Qed.

(** A pass that leaves [ESP_OK] in [res] has no failing write. *)
Lemma pass_ok_no_failed_write (e : frame_env) :
  pass_res e = ESP_OK → count is_failed_write (pass_trace e) = 0%nat.
Proof.
  run_iteration e; cbn; try discriminate; rewrite_eqb; cbn; try done;
    intros ->; first [ reflexivity | discriminate ].
Qed.

(** In a pass, no write and no acquire follows a write that failed. *)
Lemma pass_stops_writing (e : frame_env) :
  count_after is_failed_write is_chunk (pass_trace e) = 0%nat ∧
  count_after is_failed_write is_acquire (pass_trace e) = 0%nat.
Proof.
  unfold count_after.
  run_iteration e; try discriminate; cbn; rewrite_eqb; cbn;
    repeat match goal with
           | |- context [(?r =? ESP_OK)%Z] => destruct (r =? ESP_OK)%Z
           end;
    by split.
Qed.

(** The least pass that does not leave [ESP_OK], if there is one among the
    first [fuel]. *)
Lemma first_failing_pass (env : nat → frame_env) (fuel : nat) :
  (∀ j, (j < fuel)%nat → pass_res (env j) = ESP_OK) ∨
  ∃ k, (k < fuel)%nat ∧ (∀ j, (j < k)%nat → pass_res (env j) = ESP_OK) ∧
       pass_res (env k) ≠ ESP_OK.
Proof.
  induction fuel as [| fuel [IH | (k & Hk & Hok & Hfail)]].
  - left. intros j Hj. lia.
  - destruct (Z.eq_dec (pass_res (env fuel)) ESP_OK) as [He | He].
    + left. intros j Hj.
      destruct (decide (j = fuel)) as [-> | Hne]; [done | apply IH; lia].
    + right. exists fuel. split; [lia |]. split; [| done].
      intros j Hj. by apply IH.
  - right. exists k. split; [lia | by split].
Qed.

(** The calls of the handler are those of its passes, one pass after the
    other; only the last pass of a handler that returned has an error. *)
Lemma stream_handler_shape (fuel : nat) (env : nat → frame_env) :
  ∃ k, (k ≤ fuel)%nat ∧
    (stream_handler fuel ESP_OK env).2 =
      httpd_resp_set_type _STREAM_CONTENT_TYPE
      :: flat_map (λ j, pass_trace (env j)) (seq 0 k) ∧
    (∀ j, (S j < k)%nat → pass_res (env j) = ESP_OK) ∧
    ((stream_handler fuel ESP_OK env).1 = None ∧
       (∀ j, (j < k)%nat → pass_res (env j) = ESP_OK)
     ∨ ∃ k', k = S k' ∧
         (stream_handler fuel ESP_OK env).1 = Some (pass_res (env k')) ∧
         pass_res (env k') ≠ ESP_OK).
Proof.
  assert (H0 : at_loop_head init_locals) by done.
  unfold stream_handler. cbn [negb Z.eqb ESP_OK].
  destruct (first_failing_pass env fuel) as [Hok | (k & Hk & Hok & Hfail)].
  - exists fuel. rewrite (loop_running env fuel 0%nat init_locals H0);
      [| intros j Hj; apply Hok; lia ].
    split; [lia |]. split; [done |]. split; [intros j Hj; apply Hok; lia |].
    left. split; [done | exact Hok].
  - exists (S k). rewrite (loop_exits env k 0%nat init_locals fuel H0);
      [| intros j Hj; apply Hok; lia | done | done ].
    split; [lia |]. split; [done |]. split; [intros j Hj; apply Hok; lia |].
    right. exists k. by split.
Qed.

(** X10: when the first [n] passes are successful cycles and pass [n]
    is not, the handler stops in pass [n] and returns [ESP_FAIL] if the
    camera returned no buffer or the conversion failed, and otherwise the
    result of the first chunked write that failed; a pass in which no JPEG
    body is obtained writes no chunk and frees nothing. *)
Theorem stream_handler_error (env : nat → frame_env) (n fuel : nat) :
  (∀ i, (i < n)%nat → cycle_ok (env i) = true) →
  cycle_ok (env n) = false →
  (n < fuel)%nat →
  stream_handler fuel ESP_OK env =
    (Some (pass_error (env n)),
     httpd_resp_set_type _STREAM_CONTENT_TYPE
     :: flat_map (λ i, pass_trace (env i)) (seq 0 (S n))) ∧
  pass_error (env n) ≠ ESP_OK ∧
  (delivers (env n) = false →
   pass_error (env n) = ESP_FAIL ∧
   count is_chunk (pass_trace (env n)) = 0%nat ∧
   count is_free (pass_trace (env n)) = 0%nat).
Proof.
  intros Hok Hbad Hfuel.
  assert (H0 : at_loop_head init_locals) by done.
  destruct (failing_pass_error (env n) Hbad) as [Hres Hne].
  split; [| split; [done |]].
  - unfold stream_handler. cbn [negb Z.eqb ESP_OK].
    rewrite (loop_exits env n 0%nat init_locals fuel H0); cbn [Nat.add];
      [ by rewrite Hres
      | intros j Hj; apply cycle_ok_pass, Hok; lia
      | by rewrite Hres
      | done ].
  - intros Hd. split; [| by apply no_body_no_write].
    unfold pass_error. by rewrite Hd.
Qed.

Lemma stream_handler_error_witness :
  (∀ i, (i < 1)%nat → cycle_ok (Examples.one_then_no_frame i) = true) ∧
  cycle_ok (Examples.one_then_no_frame 1) = false ∧
  (1 < 5)%nat ∧
  (stream_handler 5 ESP_OK Examples.one_then_no_frame).1 = Some ESP_FAIL ∧
  count is_acquire (stream_handler 5 ESP_OK Examples.one_then_no_frame).2
    = 2%nat.
Proof.
  assert (Hok : ∀ i, (i < 1)%nat →
                     cycle_ok (Examples.one_then_no_frame i) = true).
  { intros [| i] Hi; [reflexivity | lia]. }
  destruct (stream_handler_error Examples.one_then_no_frame 1 5 Hok
              eq_refl ltac:(lia)) as (Hrun & _).
  split; [exact Hok |]. split; [reflexivity |]. split; [lia |].
  rewrite Hrun. split; reflexivity.
Defined.

(** X11: whatever the APIs answer and however long the handler runs,
    once a chunked write has failed the handler writes no further chunk and
    acquires no further frame. *)
Theorem nothing_after_failed_write (fuel : nat) (set_type : esp_err_t)
    (env : nat → frame_env) :
  count_after is_failed_write is_chunk (stream_handler fuel set_type env).2
    = 0%nat ∧
  count_after is_failed_write is_acquire (stream_handler fuel set_type env).2
    = 0%nat.
Proof.
  destruct (Z.eqb_spec set_type ESP_OK) as [-> | Hst].
  - destruct (stream_handler_shape fuel env) as (k & _ & -> & Hok & Hlast).
    rewrite !count_after_cons by done.
    destruct Hlast as [[_ Hall] | (k' & -> & _ & _)].
    + rewrite !count_after_none; [done | |];
        (rewrite (seq_flat_map_count _ is_failed_write 0 k 0%nat); [lia |];
         intros j Hj; apply pass_ok_no_failed_write, Hall; lia).
    + rewrite seq_S, flat_map_app. cbn [Nat.add flat_map].
      rewrite app_nil_r.
      rewrite !count_after_app; [apply pass_stops_writing | |];
        (rewrite (seq_flat_map_count _ is_failed_write 0 k' 0%nat); [lia |];
         intros j Hj; apply pass_ok_no_failed_write, Hok; lia).
  - unfold stream_handler.
    apply Z.eqb_neq in Hst. rewrite Hst. by cbn.
Qed.

Lemma bytes_at_fb (f : camera_fb_t) : bytes_at (Some (FbBuf f)) (len f) = buf f.
Proof. apply (bytes_at_all (Some (FbBuf f))). Qed.

Lemma bytes_at_heap (a : N) (d : list byte) :
  bytes_at (Some (Heap a d)) (N.of_nat (length d)) = d.
Proof. apply (bytes_at_all (Some (Heap a d))). Qed.




(** X13: in a pass, nothing is written after the memory it is written
    from has been given up: no chunked write follows [free], and for a JPEG
    frame, whose own bytes are written, none follows
    [esp_camera_fb_return]; a frame that is converted is given back before
    the first write. *)
Theorem pass_writes_before_release (e : frame_env) :
  count_after is_free is_chunk (pass_trace e) = 0%nat ∧
  match cam e with
  | Some f =>
      if is_jpeg (format f)
      then count_after is_release is_chunk (pass_trace e) = 0%nat
      else count_after is_release is_chunk (pass_trace e)
           = count is_chunk (pass_trace e)
  | None => count is_release (pass_trace e) = 0%nat
  end.
Proof.
  unfold count_after.
  run_iteration e; try discriminate; cbn; rewrite ?Efmt; cbn;
    repeat match goal with
           | |- context [(?r =? ESP_OK)%Z] => destruct (r =? ESP_OK)%Z
           end;
    by split.
Qed.

End StreamRuns.

(** ** More on the single-capture handler *)

Section CaptureRuns.

Import Capture.

(** X14: the single-capture handler answers with exactly the bytes of the
    frame when the frame is JPEG, and with exactly the bytes [frame2jpg]
    produced when it is not, in one [httpd_resp_send] whose result it
    returns; when the camera returns no buffer it sends the 500 response
    only, and when the conversion fails it sends nothing; either way it
    returns [ESP_FAIL]. *)
Theorem capture_response (e : capture_env) :
  match cam e with
  | None =>
      capture_handler e =
        (ESP_FAIL, [ esp_camera_fb_get None;
                     Serial_println "Camera capture failed";
                     httpd_resp_send_500 ])
  | Some f =>
      count is_send_500 (capture_handler e).2 = 0%nat ∧
      count is_chunk (capture_handler e).2 = 0%nat ∧
      if is_jpeg (format f) then
        bodies_sent (capture_handler e).2 = [buf f] ∧
        (capture_handler e).1 = wr e
      else
        match conv e with
        | Some (_, d) =>
            bodies_sent (capture_handler e).2 = [d] ∧
            (capture_handler e).1 = wr e
        | None =>
            bodies_sent (capture_handler e).2 = [] ∧
            (capture_handler e).1 = ESP_FAIL
        end
  end.
Proof.
  unfold capture_handler.
  destruct e as [[f |] [[a d] |] w]; cbn [cam conv wr]; try reflexivity;
    destruct (is_jpeg (format f)); cbn;
    rewrite ?bytes_at_fb, ?bytes_at_heap; done.
Qed.

(** X15: the single-capture handler sends nothing after it has given the
    frame back or freed the converted block, and it sets the content type
    before it sends: the release is its last call whenever a frame was
    acquired. *)
Theorem capture_sends_before_release (e : capture_env) :
  count_after is_release is_response (capture_handler e).2 = 0%nat ∧
  count_after is_free is_response (capture_handler e).2 = 0%nat ∧
  match cam e with
  | Some f =>
      last (capture_handler e).2 = Some (esp_camera_fb_return f) ∧
      (capture_handler e).2 !! 1%nat = Some (httpd_resp_set_type "image/jpeg")
  | None => count is_release (capture_handler e).2 = 0%nat
  end.
Proof.
  unfold capture_handler, count_after.
  destruct e as [[f |] [[a d] |] w]; cbn [cam conv wr];
    try destruct (is_jpeg (format f)); cbn; done.
Qed.

End CaptureRuns.

(** ** Reading the part header back *)

Section HeaderRoundTrip.

Import Fmt Stream.

Lemma digit_of_digit_char (d : N) : (d < 10)%N → digit_of (digit_char d) = Some d.
Proof.
  intros H.
  assert (Hd : d ∈ [0; 1; 2; 3; 4; 5; 6; 7; 8; 9]%N).
  { rewrite !elem_of_cons. lia. }
  repeat (apply elem_of_cons in Hd as [-> | Hd]); [done .. |].
  by apply elem_of_nil in Hd.
Qed.

Lemma atou_from_digits (l : list N) : ∀ acc,
  Forall (λ d, (d < 10)%N) l →
  atou_from (string_of_list_ascii (map digit_char l)) acc =
    Some (fold_left (λ a d, (10 * a + d)%N) l acc).
Proof.
  induction l as [| d l IH]; intros acc Hl; [done |].
  apply Forall_cons in Hl as [Hd Hl]. cbn [map string_of_list_ascii atou_from].
  rewrite digit_of_digit_char by done. by apply IH.
Qed.

Lemma fold_left_rev_value (ds : list N) :
  fold_left (λ a d, (10 * a + d)%N) (rev ds) 0%N = value_lsb ds.
Proof.
  induction ds as [| d ds IH]; [done |].
  cbn [rev value_lsb]. rewrite fold_left_app. cbn. rewrite IH. lia.
Qed.

(** The digits of [utoa n] read back as [n]. *)
Lemma atou_utoa (n : N) : atou (utoa n) = Some n.
Proof.
  unfold utoa.
  set (ds := digits_lsb (S (N.to_nat (N.size n))) n).
  assert (Hds : Forall (λ d, (d < 10)%N) ds) by apply digits_lsb_digit.
  assert (Hv : value_lsb ds = n).
  { apply digits_lsb_value.
    rewrite Nat2N.inj_succ, N2Nat.id, N.pow_succ_r'.
    pose proof (N.size_gt n). lia. }
  assert (Hne : rev ds ≠ []).
  { unfold ds. cbn [digits_lsb rev]. by destruct (rev _). }
  assert (Hr : Forall (λ d, (d < 10)%N) (rev ds)) by (by apply Forall_rev).
  rewrite <- Hv, <- fold_left_rev_value.
  destruct (rev ds) as [| d l] eqn:E; [done |].
  change (atou_from (string_of_list_ascii (map digit_char (d :: l))) 0%N
          = Some (fold_left (λ a d, (10 * a + d)%N) (d :: l) 0%N)).
  by apply atou_from_digits.
Qed.

Lemma span_digits_stop (l : list N) (rest : string) :
  Forall (λ d, (d < 10)%N) l →
  (∀ c s, rest = String c s → digit_of c = None) →
  span_digits (string_of_list_ascii (map digit_char l) ++ rest)%string =
    (string_of_list_ascii (map digit_char l), rest).
Proof.
  intros Hl Hrest. induction l as [| d l IH].
  - change (span_digits rest = (EmptyString, rest)).
    destruct rest as [| c s]; [done |].
    cbn. by rewrite (Hrest c s).
  - apply Forall_cons in Hl as [Hd Hl].
    change (span_digits (String (digit_char d)
              (string_of_list_ascii (map digit_char l) ++ rest)%string) =
            (String (digit_char d) (string_of_list_ascii (map digit_char l)), rest)).
    cbn [span_digits]. rewrite digit_of_digit_char by done.
    by rewrite IH.
Qed.

Lemma strip_prefix_app (p rest : string) :
  Control.strip_prefix p (p ++ rest)%string = Some rest.
Proof.
  induction p as [| c p IH]; [done |].
  change (Control.strip_prefix (String c p) (String c (p ++ rest)%string)
          = Some rest).
  cbn [Control.strip_prefix]. by rewrite Ascii.eqb_refl.
Qed.

Lemma parse_part_header_inverse (n : N) :
  parse_part_header (part_header n) = Some n.
Proof.
  unfold parse_part_header, part_header.
  rewrite string_of_list_byte_of_string.
  change ("Content-Type: image/jpeg" ++ CRLF ++ "Content-Length: "
          ++ utoa n ++ CRLF ++ CRLF)%string
    with (("Content-Type: image/jpeg" ++ CRLF ++ "Content-Length: ")
          ++ (utoa n ++ CRLF ++ CRLF))%string.
  rewrite strip_prefix_app.
  pose proof (atou_utoa n) as Hn. unfold utoa in *.
  rewrite span_digits_stop.
  - by rewrite String.eqb_refl.
  - apply Forall_rev, digits_lsb_digit.
  - intros c s [= <- _]. reflexivity.
Qed.

(** X16: the header of every part can be read back: in a successful
    acquire-and-send cycle, the decimal number that follows
    [Content-Length: ] in the first chunk, read up to the line end, is the
    number of bytes of the second chunk, the JPEG body. *)
Theorem part_header_reads_back (e : frame_env) :
  cycle_ok e = true →
  (N.of_nat (length (jpeg_body e)) < 2 ^ 32)%N →
  ∃ header body boundary,
    chunks_sent (pass_trace e) = [header; body; boundary] ∧
    parse_part_header header = Some (N.of_nat (length body)).
Proof.
  intros Hok Hlen. do 3 eexists.
  split; [by apply pass_chunks |]. apply parse_part_header_inverse.
Qed.

Lemma part_header_reads_back_witness :
  cycle_ok Examples.ok_raw = true ∧
  (N.of_nat (length (jpeg_body Examples.ok_raw)) < 2 ^ 32)%N ∧
  ∃ header body boundary,
    chunks_sent (pass_trace Examples.ok_raw) = [header; body; boundary] ∧
    parse_part_header header = Some 3%N.
Proof.
  split; [reflexivity |]. split; [reflexivity |].
  destruct (part_header_reads_back Examples.ok_raw eq_refl eq_refl)
    as (h & b & bd & Hc & Hp).
  exists h, b, bd. split; [exact Hc |].
  rewrite Hp. vm_compute in Hc. by injection Hc as <- <- <-.
Defined.

End HeaderRoundTrip.
